(** * ppsutil: job and pipeline state transitions, input resolution,
      resource lists and parallelism

    A shallow embedding of [src/server/pkg/ppsutil/util.go].  Go values are
    modelled as follows:
    - [int32] and [int] values are integers in [Z], with the wrap-around of
      the machine arithmetic written out ([wrap32], [wrap64]);
    - a Go map is an [option (gmap _ _)], [None] being the nil map: reading
      a nil map yields the zero value, writing to it panics;
    - a function that returns [error] returns a [Result]; a Go panic is a
      third outcome, distinct from a returned error;
    - the two collections of the transactional store and the job record the
      caller holds by pointer form the state threaded through
      [UpdateJobState];
    - a [float64] is a value of the binary64 format as the standard library
      specifies it, and an [int] has 64 bits;
    - what the package calls in other libraries (the quantity parser of
      Kubernetes, [path.Join], the clock) is a parameter of the function
      that calls it. *)

From Stdlib Require Import Ascii String.
From Stdlib Require SpecFloat.
From stdpp Require Import base numbers option strings list gmap fin_maps pretty.

Local Open Scope Z_scope.

(** ** Machine integers *)

Definition wrap32 (z : Z) : Z := (z + 2 ^ 31) `mod` 2 ^ 32 - 2 ^ 31.
Definition wrap64 (z : Z) : Z := (z + 2 ^ 63) `mod` 2 ^ 64 - 2 ^ 63.

Definition is_int32 (z : Z) : Prop := - 2 ^ 31 ≤ z < 2 ^ 31.
Definition is_uint64 (z : Z) : Prop := 0 ≤ z < 2 ^ 64.

(** ** Job and pipeline states *)

(** Modelled from the spec: the enumeration [pps.JobState] is declared in
    the generated client package, which is not part of the sources at hand.
    It is an [int32]; the spec lists its six named values.  Only their
    being pairwise distinct matters below. *)
Definition JobState := Z.
Definition JobState_JOB_STARTING : JobState := 0.
Definition JobState_JOB_RUNNING : JobState := 1.
Definition JobState_JOB_FAILURE : JobState := 2.
Definition JobState_JOB_SUCCESS : JobState := 3.
Definition JobState_JOB_KILLED : JobState := 4.
Definition JobState_JOB_MERGING : JobState := 5.

(** Modelled from the spec: [pps.PipelineState], likewise an [int32]
    enumeration of the client package. *)
Definition PipelineState := Z.
Definition PipelineState_PIPELINE_STARTING : PipelineState := 0.
Definition PipelineState_PIPELINE_RUNNING : PipelineState := 1.
Definition PipelineState_PIPELINE_RESTARTING : PipelineState := 2.
Definition PipelineState_PIPELINE_FAILURE : PipelineState := 3.
Definition PipelineState_PIPELINE_PAUSED : PipelineState := 4.
Definition PipelineState_PIPELINE_STANDBY : PipelineState := 5.

(** The states the job state machine names as done, and the ones it names
    as still under way. *)
Definition terminal (state : JobState) : Prop :=
  state = JobState_JOB_SUCCESS ∨ state = JobState_JOB_FAILURE
  ∨ state = JobState_JOB_KILLED.

Definition in_progress (state : JobState) : Prop :=
  state = JobState_JOB_STARTING ∨ state = JobState_JOB_RUNNING
  ∨ state = JobState_JOB_MERGING.

Definition recognized (state : JobState) : Prop :=
  terminal state ∨ in_progress state.

#[global] Instance terminal_dec state : Decision (terminal state).
Proof. unfold terminal. apply _. Defined.
#[global] Instance in_progress_dec state : Decision (in_progress state).
Proof. unfold in_progress. apply _. Defined.
#[global] Instance recognized_dec state : Decision (recognized state).
Proof. unfold recognized. apply _. Defined.

(** ** Outcomes *)

(** The errors the package returns.  The Go code builds them with
    [fmt.Errorf] or passes on the error of a collaborator; the constructors
    keep what tells them apart. *)
Inductive Error : Type :=
  | IllegalTransition (job : string) (state : JobState)
  | NotFound (key : string)
  | TimestampError
  | ClusterUnavailable
  | InvalidParallelismSpec.

Inductive PanicCause : Type :=
  | UnrecognizedJobState (state : JobState)
  | NilMapWrite
  | NilDereference.

Inductive Result (A : Type) : Type :=
  | Ok (a : A)
  | Err (e : Error)
  | Panic (p : PanicCause).
Arguments Ok {A} a.
Arguments Err {A} e.
Arguments Panic {A} p.

(** ** Records *)

(** [types.Timestamp] of the protobuf library. *)
Record Timestamp : Type := mkTimestamp { Seconds : Z; Nanos : Z }.

(** Modelled from the spec: [pfs.Commit], declared in the client package,
    which is not part of the sources at hand: the name of the repository
    and the commit id. *)
Record Commit : Type := mkCommit { Commit_Repo : string; Commit_ID : string }.

(** Modelled from the spec: [pps.EtcdPipelineInfo], declared in the client
    package: the pipeline record of the store, with the fields of the spec's
    data model. *)
Record EtcdPipelineInfo : Type := mkPipeline {
  Pipeline_State : PipelineState;
  Pipeline_Reason : string;
  Pipeline_SpecCommit : option Commit;
  Pipeline_JobCounts : option (gmap Z Z);
  Pipeline_LastJobState : JobState
}.

(** Modelled from the spec: [pps.EtcdJobInfo], declared in the client
    package: the job record of the store, with the fields of the spec's data
    model.  [Job_ID] and [Job_Pipeline] stand for [Job.ID] and
    [Pipeline.Name]: the record is taken with both references set, as every
    stored job record has them. *)
Record EtcdJobInfo : Type := mkJob {
  Job_ID : string;
  Job_Pipeline : string;
  Job_OutputCommit : option Commit;
  Job_Restart : Z;
  Job_State : JobState;
  Job_Reason : string;
  Job_Started : option Timestamp;
  Job_Finished : option Timestamp
}.

Definition set_JobCounts (c : option (gmap Z Z)) (p : EtcdPipelineInfo) :=
  mkPipeline (Pipeline_State p) (Pipeline_Reason p) (Pipeline_SpecCommit p)
             c (Pipeline_LastJobState p).
Definition set_LastJobState (s : JobState) (p : EtcdPipelineInfo) :=
  mkPipeline (Pipeline_State p) (Pipeline_Reason p) (Pipeline_SpecCommit p)
             (Pipeline_JobCounts p) s.
Definition set_Pipeline_State (s : PipelineState) (p : EtcdPipelineInfo) :=
  mkPipeline s (Pipeline_Reason p) (Pipeline_SpecCommit p)
             (Pipeline_JobCounts p) (Pipeline_LastJobState p).
Definition set_Pipeline_Reason (r : string) (p : EtcdPipelineInfo) :=
  mkPipeline (Pipeline_State p) r (Pipeline_SpecCommit p)
             (Pipeline_JobCounts p) (Pipeline_LastJobState p).

Definition set_Job_State (s : JobState) (j : EtcdJobInfo) :=
  mkJob (Job_ID j) (Job_Pipeline j) (Job_OutputCommit j) (Job_Restart j)
        s (Job_Reason j) (Job_Started j) (Job_Finished j).
Definition set_Job_Reason (r : string) (j : EtcdJobInfo) :=
  mkJob (Job_ID j) (Job_Pipeline j) (Job_OutputCommit j) (Job_Restart j)
        (Job_State j) r (Job_Started j) (Job_Finished j).
Definition set_Job_Started (t : option Timestamp) (j : EtcdJobInfo) :=
  mkJob (Job_ID j) (Job_Pipeline j) (Job_OutputCommit j) (Job_Restart j)
        (Job_State j) (Job_Reason j) t (Job_Finished j).
Definition set_Job_Finished (t : option Timestamp) (j : EtcdJobInfo) :=
  mkJob (Job_ID j) (Job_Pipeline j) (Job_OutputCommit j) (Job_Restart j)
        (Job_State j) (Job_Reason j) (Job_Started j) t.

(** ** Go maps from [int32] to [int32] *)

(** [m[k]]: the zero value when the key is missing or the map is nil. *)
Definition map_read (m : option (gmap Z Z)) (k : Z) : Z :=
  default 0 (m ≫= (.!! k)).

(** [m[k] = v]: a panic on the nil map. *)
Definition map_write (m : option (gmap Z Z)) (k v : Z) : Result (gmap Z Z) :=
  match m with
  | None => Panic NilMapWrite
  | Some g => Ok (<[k := v]> g)
  end.

(** The sum of all entries of a job-count map. *)
Definition counts_sum (m : option (gmap Z Z)) : Z :=
  map_fold (λ _ v acc, v + acc) 0 (default ∅ m).

(** ** The store and the state threaded through a transition *)

(** Modelled from the spec: the collections of the store behind
    [col.ReadWriteCollection], whose package is not part of the sources at
    hand.  Following the spec's Transactional Store capability, a collection
    maps keys to records. *)
Record Store : Type := mkStore {
  pipelines : gmap string EtcdPipelineInfo;
  jobs : gmap string EtcdJobInfo
}.

(** What [UpdateJobState] works on: the two collections and the job record
    behind [jobPtr], which it mutates in place. *)
Record World : Type := mkWorld {
  store : Store;
  jobPtr : EtcdJobInfo
}.

(** State and outcome threaded through the statements of a function body. *)
Definition M (S A : Type) : Type := S → Result A * S.

Definition ret {S A} (a : A) : M S A := λ s, (Ok a, s).
Definition bind {S A B} (m : M S A) (k : A → M S B) : M S B :=
  λ s, match m s with
       | (Ok a, s') => k a s'
       | (Err e, s') => (Err e, s')
       | (Panic p, s') => (Panic p, s')
       end.
Definition throw {S A} (e : Error) : M S A := λ s, (Err e, s).
Definition lift {S A} (r : Result A) : M S A := λ s, (r, s).

(** A call whose error result the caller does not look at. *)
Definition drop_error {S A} (m : M S A) : M S unit :=
  λ s, match m s with
       | (Panic p, s') => (Panic p, s')
       | (_, s') => (Ok (), s')
       end.

Notation "'do' x <- c1 ; c2" := (bind c1 (λ x, c2))
  (at level 10, x name, c1 at level 100, c2 at level 200).
Notation "c1 ;; c2" := (bind c1 (λ _, c2))
  (at level 100, c2 at level 200, right associativity).

(** Modelled from the spec: [Get] of a collection of the absent collection
    package yields the record under the key, or fails with the not-found
    error. *)
Definition pipelines_Get (key : string) : M Store EtcdPipelineInfo :=
  λ s, match pipelines s !! key with
       | Some p => (Ok p, s)
       | None => (Err (NotFound key), s)
       end.

(** Modelled from the spec: [Put] of a collection of the absent collection
    package stores the record under the key. *)
Definition pipelines_Put (key : string) (p : EtcdPipelineInfo) : M Store unit :=
  λ s, (Ok (), mkStore (<[key := p]> (pipelines s)) (jobs s)).
Definition jobs_Put (key : string) (j : EtcdJobInfo) : M Store unit :=
  λ s, (Ok (), mkStore (pipelines s) (<[key := j]> (jobs s))).

(** Modelled from the spec: [col.NewSTM] of the absent collection package
    runs the body as one transaction attempt: the writes are kept when the
    body returns nil and dropped when it returns an error. *)
Definition NewSTM (body : M Store unit) : M Store unit :=
  λ s, match body s with
       | (Ok tt, s') => (Ok tt, s')
       | (r, _) => (r, s)
       end.

(** A store operation inside a function that also holds [jobPtr]. *)
Definition on_store {A} (m : M Store A) : M World A :=
  λ w, let '(r, s') := m (store w) in (r, mkWorld s' (jobPtr w)).
Definition get_jobPtr : M World EtcdJobInfo := λ w, (Ok (jobPtr w), w).
Definition update_jobPtr (f : EtcdJobInfo → EtcdJobInfo) : M World unit :=
  λ w, (Ok (), mkWorld (store w) (f (jobPtr w))).

(** ** [IsTerminal] *)

Definition IsTerminal (state : JobState) : Result bool :=
  if bool_decide (state = JobState_JOB_SUCCESS ∨ state = JobState_JOB_FAILURE
                  ∨ state = JobState_JOB_KILLED) then Ok true
  else if bool_decide (state = JobState_JOB_STARTING
                       ∨ state = JobState_JOB_RUNNING
                       ∨ state = JobState_JOB_MERGING) then Ok false
  else Panic (UnrecognizedJobState state).

(** ** [UpdateJobState] *)

Definition and_then {A B} (r : Result A) (k : A → Result B) : Result B :=
  match r with
  | Ok a => k a
  | Err e => Err e
  | Panic c => Panic c
  end.
Notation "'try' x <- r ; k" := (and_then r (λ x, k))
  (at level 10, x name, r at level 100, k at level 200).

(** [pipelinePtr.JobCounts[k] = v] on the local pipeline record. *)
Definition JobCounts_store (k v : Z) (p : EtcdPipelineInfo)
  : Result EtcdPipelineInfo :=
  try g <- map_write (Pipeline_JobCounts p) k v;
  Ok (set_JobCounts (Some g) p).

(** The statements between the read and the write of the pipeline record:
    the record read gets its counts moved from the job's state to the new
    one, and the new state as its last job state. *)
Definition count_transition (old state : JobState)
    (pipelinePtr : EtcdPipelineInfo) : Result EtcdPipelineInfo :=
  let pipelinePtr :=
    if Pipeline_JobCounts pipelinePtr is None
    then set_JobCounts (Some ∅) pipelinePtr else pipelinePtr in
  try pipelinePtr <-
    (if bool_decide (map_read (Pipeline_JobCounts pipelinePtr) old ≠ 0)
     then JobCounts_store old
            (wrap32 (map_read (Pipeline_JobCounts pipelinePtr) old - 1))
            pipelinePtr
     else Ok pipelinePtr);
  try pipelinePtr <-
    JobCounts_store state
      (wrap32 (map_read (Pipeline_JobCounts pipelinePtr) state + 1))
      pipelinePtr;
  Ok (set_LastJobState state pipelinePtr).

(** The timestamps of the job record.  [stamp] is what
    [types.TimestampProto(time.Now())] yields at the call: the timestamp, or
    [None] when the conversion fails; the nil it then returns is assigned
    all the same, before the error is returned. *)
Definition stamp_job (state : JobState) (stamp : option Timestamp)
  : M World unit :=
  if bool_decide (state = JobState_JOB_STARTING) then
    update_jobPtr (set_Job_Started stamp) ;;
    if stamp is None then throw TimestampError else ret ()
  else
    do fin <- lift (IsTerminal state);
    if fin : bool then
      update_jobPtr (set_Job_Finished stamp) ;;
      if stamp is None then throw TimestampError else ret ()
    else ret ().

Definition UpdateJobState (state : JobState) (reason : string)
    (stamp : option Timestamp) : M World unit :=
  do j <- get_jobPtr;
  if bool_decide (Job_State j = JobState_JOB_FAILURE) then
    throw (IllegalTransition (Job_ID j) state)
  else
    (* Update pipeline *)
    do pipelinePtr <- on_store (pipelines_Get (Job_Pipeline j));
    do pipelinePtr <- lift (count_transition (Job_State j) state pipelinePtr);
    on_store (pipelines_Put (Job_Pipeline j) pipelinePtr) ;;
    (* Update job info *)
    stamp_job state stamp ;;
    update_jobPtr (set_Job_State state) ;;
    update_jobPtr (set_Job_Reason reason) ;;
    do j <- get_jobPtr;
    on_store (jobs_Put (Job_ID j) j).

(** ** [FailPipeline] *)

(** The result of [Put] is dropped, as in the source. *)
Definition FailPipeline (pipelineName reason : string) : M Store unit :=
  NewSTM (
    do pipelinePtr <- pipelines_Get pipelineName;
    let pipelinePtr :=
      set_Pipeline_State PipelineState_PIPELINE_FAILURE pipelinePtr in
    let pipelinePtr := set_Pipeline_Reason reason pipelinePtr in
    drop_error (pipelines_Put pipelineName pipelinePtr) ;;
    ret ()).

(** ** Resource lists *)

(** Modelled from the spec: [pps.GPUSpec], declared in the client package:
    the count of GPUs, an [int64], and their type. *)
Record GPUSpec : Type := mkGPUSpec { Gpu_Type : string; Gpu_Number : Z }.

(** Modelled from the spec: [pps.ResourceSpec], declared in the client
    package: fractional cores, a [float32], memory and disk as strings, and
    an optional GPU. *)
Record ResourceSpec (float32 : Type) : Type := mkResourceSpec {
  Cpu : float32;
  Memory : string;
  Gpu : option GPUSpec;
  Disk : string
}.
Arguments mkResourceSpec {float32}.
Arguments Cpu {float32}.
Arguments Memory {float32}.
Arguments Gpu {float32}.
Arguments Disk {float32}.

(** The resource names of the Kubernetes API the function writes under. *)
Definition ResourceCPU : string := "cpu".
Definition ResourceMemory : string := "memory".
Definition ResourceEphemeralStorage : string := "ephemeral-storage".

Section ResourceList.
(** The Quantity Parser collaborator ([resource.Quantity] of the
    Kubernetes API machinery) and the formatting of numbers are taken as
    given.  [ParseQuantity] returns, as in Go, a quantity together with
    whether it failed; [Cmp] is negative, zero or positive. *)
Variable Quantity : Type.
Variable ParseQuantity : string → Quantity * bool.
Variable Cmp : Quantity → Quantity → Z.
Variable float32 : Type.
Variable Sprintf_f : float32 → string.
Variable Sprintf_d : Z → string.

(** [result[name] = q] when the parse went through, a warning in the log
    and nothing else when it did not. *)
Definition store_parsed (name : string) (parsed : Quantity * bool)
    (result : gmap string Quantity) : gmap string Quantity :=
  if parsed.2 then result else <[name := parsed.1]> result.

Definition getResourceListFromSpec
    (resources : option (ResourceSpec float32)) (cacheSize : string)
  : Result (gmap string Quantity) :=
  match resources with
  | None => Panic NilDereference
  | Some resources =>
    let result : gmap string Quantity := ∅ in
    let cpuStr := Sprintf_f (Cpu resources) in
    let result := store_parsed ResourceCPU (ParseQuantity cpuStr) result in
    let mem := ParseQuantity (Memory resources) in
    let memQuantity := mem.1 in
    let result := store_parsed ResourceMemory mem result in
    let result :=
      if bool_decide (Disk resources ≠ "")
      then store_parsed ResourceEphemeralStorage
             (ParseQuantity (Disk resources)) result
      else result in
    (* A pipeline should request at least as much memory as it needs for
       caching. *)
    let cache := ParseQuantity cacheSize in
    let cacheQuantity := cache.1 in
    let result :=
      if cache.2 then result
      else if bool_decide (Cmp cacheQuantity memQuantity > 0)
      then <[ResourceMemory := cacheQuantity]> result
      else result in
    let result :=
      match Gpu resources with
      | Some gpu =>
          let gpuStr := Sprintf_d (Gpu_Number gpu) in
          store_parsed (Gpu_Type gpu) (ParseQuantity gpuStr) result
      | None => result
      end in
    Ok result
  end.

(** [GetRequestsResourceListFromPipeline] and
    [GetLimitsResourceListFromPipeline] pass the requests and the limits
    of the pipeline with the same cache size. *)
Definition GetRequestsResourceListFromPipeline
    (ResourceRequests : option (ResourceSpec float32)) (CacheSize : string) :=
  getResourceListFromSpec ResourceRequests CacheSize.
Definition GetLimitsResourceListFromPipeline
    (ResourceLimits : option (ResourceSpec float32)) (CacheSize : string) :=
  getResourceListFromSpec ResourceLimits CacheSize.
End ResourceList.

(** ** Job inputs *)

(** Modelled from the spec: [pfs.Branch], declared in the client package:
    the name of the repository and the name of the branch. *)
Record Branch : Type := mkBranch { Branch_Repo : string; Branch_Name : string }.

(** Modelled from the spec: an entry of [pfs.CommitInfo.Provenance],
    declared in the client package: an upstream commit and the branch it
    was on.  Both references of an entry are taken as set. *)
Record CommitProvenance : Type := mkCommitProvenance {
  Prov_Commit : Commit;
  Prov_Branch : Branch
}.

(** Modelled from the spec: the leaves of the input tree, [pps.PFSInput],
    [pps.CronInput] and [pps.GitInput], are declared in the client package,
    which is not part of the sources at hand.  Of a leaf, the fields
    [JobInput] reads or writes are kept, with the name and the pattern,
    schedule or address that identify the leaf. *)
Record PFSInput : Type := mkPFSInput {
  Pfs_Name : string;
  Pfs_Repo : string;
  Pfs_Branch : string;
  Pfs_Commit : string;
  Pfs_Glob : string
}.

Record CronInput : Type := mkCronInput {
  Cron_Name : string;
  Cron_Repo : string;
  Cron_Commit : string;
  Cron_Spec : string
}.

Record GitInput : Type := mkGitInput {
  Git_Name : string;
  Git_URL : string;
  Git_Branch : string;
  Git_Commit : string
}.

#[local] Unset Elimination Schemes.
(** Modelled from the spec: the input tree [pps.Input], declared in the
    client package.  A node carries up to three leaves, each optional as
    [JobInput] tests them one by one, and its children under the two
    structural operators. *)
Inductive Input : Type :=
  mkInput (Pfs : option PFSInput) (Cross : list Input) (Union : list Input)
          (Cron : option CronInput) (Git : option GitInput).
#[local] Set Elimination Schemes.

Definition Pfs (i : Input) := let 'mkInput x _ _ _ _ := i in x.
Definition Cross (i : Input) := let 'mkInput _ x _ _ _ := i in x.
Definition Union (i : Input) := let 'mkInput _ _ x _ _ := i in x.
Definition Cron (i : Input) := let 'mkInput _ _ _ x _ := i in x.
Definition Git (i : Input) := let 'mkInput _ _ _ _ x := i in x.

Definition set_Pfs_Commit (c : string) (l : PFSInput) :=
  mkPFSInput (Pfs_Name l) (Pfs_Repo l) (Pfs_Branch l) c (Pfs_Glob l).
Definition set_Cron_Commit (c : string) (l : CronInput) :=
  mkCronInput (Cron_Name l) (Cron_Repo l) c (Cron_Spec l).
Definition set_Git_Commit (c : string) (l : GitInput) :=
  mkGitInput (Git_Name l) (Git_URL l) (Git_Branch l) c.

(** Modelled from the spec: [pps.VisitInput], of the client package, calls
    [f] on every node of the tree, the children of a node before the node.
    [f] changes the node it is given in place; here it returns the node
    changed. *)
Fixpoint VisitInput (f : Input → Input) (input : Input) : Input :=
  match input with
  | mkInput pfs cross union cron git =>
      f (mkInput pfs (map (VisitInput f) cross) (map (VisitInput f) union)
                 cron git)
  end.

Section JobInput.
(** [path.Join] of the Go library, on two elements. *)
Variable key : string → string → string.

(** The loop over the provenance: a later entry replaces an earlier one
    under the same key. *)
Definition index_provenance (Provenance : list CommitProvenance)
  : gmap string Commit :=
  foldl (λ branchToCommit prov,
           <[key (Commit_Repo (Prov_Commit prov))
                 (Branch_Name (Prov_Branch prov)) := Prov_Commit prov]>
             branchToCommit)
        ∅ Provenance.

(** The function passed to [VisitInput]. *)
Definition fill_commits (branchToCommit : gmap string Commit)
    (input : Input) : Input :=
  let 'mkInput pfs cross union cron git := input in
  let pfs :=
    match pfs with
    | Some l =>
        match branchToCommit !! key (Pfs_Repo l) (Pfs_Branch l) with
        | Some commit => Some (set_Pfs_Commit (Commit_ID commit) l)
        | None => Some l
        end
    | None => None
    end in
  let cron :=
    match cron with
    | Some l =>
        match branchToCommit !! key (Cron_Repo l) "master" with
        | Some commit => Some (set_Cron_Commit (Commit_ID commit) l)
        | None => Some l
        end
    | None => None
    end in
  let git :=
    match git with
    | Some l =>
        match branchToCommit !! key (Git_Name l) (Git_Branch l) with
        | Some commit => Some (set_Git_Commit (Commit_ID commit) l)
        | None => Some l
        end
    | None => None
    end in
  mkInput pfs cross union cron git.

(** [JobInput] on the input of the pipeline and the provenance of the
    output commit.  [proto.Clone] gives the function a tree of its own to
    change: the tree it returns is a new value, the one it was given is
    as before. *)
Definition JobInput (pipelineInput : Input)
    (Provenance : list CommitProvenance) : Input :=
  let branchToCommit := index_provenance Provenance in
  let jobInput := pipelineInput in
  VisitInput (fill_commits branchToCommit) jobInput.
End JobInput.

(** ** Parallelism *)

(** Go's [float64] is the binary64 format: 53 bits of precision, exponents
    below 1024.  Values are the floats of the standard library's
    specification, with its rounding to nearest even. *)
Module Float64.
Import SpecFloat.

Definition float64 : Type := spec_float.
Definition prec : Z := 53.
Definition emax : Z := 1024.

Definition zero : float64 := S754_zero false.
Definition one : float64 := S754_finite false (2 ^ 52) (-52).
Definition inf : float64 := S754_infinity false.

(** A well-formed value of the format. *)
Definition valid (x : float64) : Prop := valid_binary prec emax x = true.

(** The significand of a finite value takes at most 53 bits. *)
Definition mantissa_fits (x : float64) : Prop :=
  match x with
  | S754_finite _ m _ => Z.pos m < 2 ^ 53
  | _ => True
  end.

(** [x * y], [x == y], [x > y] and the conversion [float64(n)]. *)
Definition mul (x y : float64) : float64 := SFmul prec emax x y.
Definition eqb (x y : float64) : bool := SFeqb x y.
Definition gtb (x y : float64) : bool := SFltb y x.
Definition of_int (n : Z) : float64 := binary_normalize prec emax n 0 false.

(** The integer part of a finite value, rounded down: the value is
    [m * 2 ^ e], negated when the sign is set. *)
Definition floorZ (x : float64) : option Z :=
  match x with
  | S754_zero _ => Some 0
  | S754_finite s m e =>
      Some (if bool_decide (0 ≤ e) then cond_Zopp s (Z.pos m) * 2 ^ e
            else cond_Zopp s (Z.pos m) `div` 2 ^ (- e))
  | _ => None
  end.

(** [math.Floor]: zeros, infinities and NaN are returned as they are. *)
Definition Floor (x : float64) : float64 :=
  match x with
  | S754_finite s m e =>
      if bool_decide (0 ≤ e) then x
      else binary_normalize prec emax
             (cond_Zopp s (Z.pos m) `div` 2 ^ (- e)) 0 s
  | _ => x
  end.

Definition is_zero (x : float64) : bool :=
  if x is S754_zero _ then true else false.
Definition is_nan (x : float64) : bool :=
  if x is S754_nan then true else false.
Definition is_pos_inf (x : float64) : bool :=
  if x is S754_infinity false then true else false.
Definition Signbit (x : float64) : bool :=
  match x with
  | S754_zero s | S754_infinity s | S754_finite s _ _ => s
  | S754_nan => false
  end.

(** [math.Max], with its special cases in the order the library tests
    them. *)
Definition Max (x y : float64) : float64 :=
  if is_pos_inf x || is_pos_inf y then inf
  else if is_nan x || is_nan y then S754_nan
  else if is_zero x && is_zero y then (if Signbit x then y else x)
  else if gtb x y then x else y.

(** The conversion [int(x)], to a 64-bit [int]: the fraction is dropped.
    For a value no [int] is equal to the language leaves the result to
    the implementation; the smallest [int] is what amd64 gives. *)
Definition to_int (x : float64) : Z :=
  match x with
  | S754_zero _ => 0
  | S754_finite s m e =>
      let z := cond_Zopp s (if bool_decide (0 ≤ e) then Z.pos m * 2 ^ e
                            else Z.pos m `div` 2 ^ (- e)) in
      if bool_decide (- 2 ^ 63 ≤ z < 2 ^ 63) then z else - 2 ^ 63
  | _ => - 2 ^ 63
  end.
End Float64.

(** Modelled from the spec: [pps.ParallelismSpec], declared in the client
    package: [Constant] is a [uint64], [Coefficient] a [float64]. *)
Record ParallelismSpec : Type := mkParallelismSpec {
  Constant : Z;
  Coefficient : Float64.float64
}.

(** The Cluster Inventory collaborator: what listing the nodes of the
    cluster yields, the names of the nodes or [None] when the request
    fails. *)
Record Clientset : Type := mkClientset { Nodes_List : option (list string) }.

Definition getNumNodes (kubeClient : Clientset) : Result Z :=
  match Nodes_List kubeClient with
  | None => Err ClusterUnavailable
  | Some Items =>
      if bool_decide (length Items = 0%nat) then Err ClusterUnavailable
      else Ok (Z.of_nat (length Items))
  end.

Definition GetExpectedNumWorkers (kubeClient : Clientset)
    (spec : option ParallelismSpec) : Result Z :=
  match spec with
  | None => Ok 1
  | Some spec =>
      if bool_decide (Constant spec = 0)
         && Float64.eqb (Coefficient spec) Float64.zero
      then Ok 1
      else if bool_decide (Constant spec > 0)
              && Float64.eqb (Coefficient spec) Float64.zero
      then Ok (wrap64 (Constant spec))
      else if bool_decide (Constant spec = 0)
              && Float64.gtb (Coefficient spec) Float64.zero
      then
        (* Start ('coefficient' * 'nodes') workers. *)
        try numNodes <- getNumNodes kubeClient;
        let result :=
          Float64.Floor
            (Float64.mul (Coefficient spec) (Float64.of_int numNodes)) in
        Ok (Float64.to_int (Float64.Max result Float64.one))
      else Err InvalidParallelismSpec
  end.

(** Modelled from the spec: [pps.HashtreeSpec], declared in the client
    package: [Constant], the number of hashtrees asked for. *)
Record HashtreeSpec : Type := mkHashtreeSpec { Hashtree_Constant : Z }.

(** The error [GetExpectedNumHashtrees] makes with [fmt.Errorf]. *)
Inductive HashtreeError : Type := InvalidHashtreeSpec.

(** The number returned and the error, nil or not, as the source pairs
    them. *)
Definition GetExpectedNumHashtrees (spec : option HashtreeSpec)
  : Z * option HashtreeError :=
  match spec with
  | None => (1, None)
  | Some spec =>
      if bool_decide (Hashtree_Constant spec = 0) then (1, None)
      else if bool_decide (Hashtree_Constant spec > 0)
      then (wrap64 (Hashtree_Constant spec), None)
      else (0, Some InvalidHashtreeSpec)
  end.

(** ** Names of replication controllers *)

(** Strings are sequences of bytes, as in Go. *)
Fixpoint string_map (f : ascii → ascii) (s : string) : string :=
  match s with
  | EmptyString => EmptyString
  | String c s => String (f c) (string_map f s)
  end.

Fixpoint string_forall (P : ascii → bool) (s : string) : bool :=
  match s with
  | EmptyString => true
  | String c s => P c && string_forall P s
  end.

(** [strings.Replace(s, old, new, -1)] of the Go library, for an [old] and
    a [new] of one byte each: every byte equal to [old] becomes [new]. *)
Definition strings_Replace (s : string) (old new : ascii) : string :=
  string_map (λ c, if bool_decide (c = old) then new else c) s.

(** A byte below [utf8.RuneSelf] is a character of its own, and an
    upper-case letter among these has its lower-case letter 32 further
    on. *)
Definition is_ASCII (c : ascii) : bool :=
  bool_decide (N_of_ascii c < 128)%N.
Definition is_upper (c : ascii) : bool :=
  bool_decide (N_of_ascii "A" ≤ N_of_ascii c ≤ N_of_ascii "Z")%N.
Definition to_lower (c : ascii) : ascii :=
  if is_upper c then ascii_of_N (N_of_ascii c + 32) else c.

Section PipelineRcName.
(** [strings.ToLower] of the Go library maps the letters of a string of
    ASCII characters byte by byte; what it makes of any other string is up
    to the case tables of Unicode, which are taken as given. *)
Variable unicode_ToLower : string → string.

Definition strings_ToLower (s : string) : string :=
  if string_forall is_ASCII s then string_map to_lower s
  else unicode_ToLower s.

(** [version] is a [uint64]; it is printed and nothing else, in decimal
    by the verb [%d]. *)
Definition PipelineRcName (name : string) (version : N) : string :=
  (* k8s won't allow RC names that contain upper-case letters or
     underscores *)
  let name := strings_Replace name "_" "-" in
  "pipeline-" +:+ strings_ToLower name +:+ "-v" +:+ pretty version.
End PipelineRcName.

(** * Closed forms, specifications and example inputs *)

(** ** Job state transitions *)

(** The count map a transition from [old] to [new] leaves. *)
Definition counts_step (c : option (gmap Z Z)) (old new : JobState)
  : gmap Z Z :=
  let g := default ∅ c in
  let g1 := if bool_decide (map_read (Some g) old ≠ 0)
            then <[old := wrap32 (map_read (Some g) old - 1)]> g else g in
  <[new := wrap32 (map_read (Some g1) new + 1)]> g1.

(** The pipeline record a transition writes back. *)
Definition pipeline_step (p : EtcdPipelineInfo) (old new : JobState)
  : EtcdPipelineInfo :=
  set_LastJobState new
    (set_JobCounts (Some (counts_step (Pipeline_JobCounts p) old new)) p).

(** The job record a committed transition writes back. *)
Definition job_step (j : EtcdJobInfo) (new : JobState) (reason : string)
    (stamp : option Timestamp) : EtcdJobInfo :=
  let j := if bool_decide (new = JobState_JOB_STARTING)
           then set_Job_Started stamp j
           else if bool_decide (terminal new) then set_Job_Finished stamp j
           else j in
  set_Job_Reason reason (set_Job_State new j).

(** The world once the pipeline record is written back. *)
Definition pipeline_written (w : World) (p : EtcdPipelineInfo)
    (state : JobState) : World :=
  mkWorld
    (mkStore (<[Job_Pipeline (jobPtr w) :=
                  pipeline_step p (Job_State (jobPtr w)) state]>
                (pipelines (store w)))
             (jobs (store w)))
    (jobPtr w).

(** The world once the job record is written back as well. *)
Definition job_written (w : World) (p : EtcdPipelineInfo)
    (state : JobState) (reason : string) (stamp : option Timestamp) : World :=
  let j := job_step (jobPtr w) state reason stamp in
  mkWorld
    (mkStore (pipelines (store (pipeline_written w p state)))
             (<[Job_ID (jobPtr w) := j]> (jobs (store w))))
    j.

(** A transition needs the clock when it enters [STARTING] or a terminal
    state. *)
Definition stamped (state : JobState) : Prop :=
  state = JobState_JOB_STARTING ∨ terminal state.

(** The job record left in memory when the timestamp conversion fails. *)
Definition job_unstamped (j : EtcdJobInfo) (state : JobState) : EtcdJobInfo :=
  if bool_decide (state = JobState_JOB_STARTING)
  then set_Job_Started None j else set_Job_Finished None j.

(** Every way a call can end. *)
Inductive UpdateJobState_ends (state : JobState) (reason : string)
    (stamp : option Timestamp) (w : World) : Result unit * World → Prop :=
  | ends_rejected :
      Job_State (jobPtr w) = JobState_JOB_FAILURE →
      UpdateJobState_ends state reason stamp w
        (Err (IllegalTransition (Job_ID (jobPtr w)) state), w)
  | ends_no_pipeline :
      Job_State (jobPtr w) ≠ JobState_JOB_FAILURE →
      pipelines (store w) !! Job_Pipeline (jobPtr w) = None →
      UpdateJobState_ends state reason stamp w
        (Err (NotFound (Job_Pipeline (jobPtr w))), w)
  | ends_no_timestamp p :
      Job_State (jobPtr w) ≠ JobState_JOB_FAILURE →
      pipelines (store w) !! Job_Pipeline (jobPtr w) = Some p →
      stamped state → stamp = None →
      UpdateJobState_ends state reason stamp w
        (Err TimestampError,
         mkWorld (store (pipeline_written w p state))
                 (job_unstamped (jobPtr w) state))
  | ends_panic p :
      Job_State (jobPtr w) ≠ JobState_JOB_FAILURE →
      pipelines (store w) !! Job_Pipeline (jobPtr w) = Some p →
      ¬ recognized state →
      UpdateJobState_ends state reason stamp w
        (Panic (UnrecognizedJobState state), pipeline_written w p state)
  | ends_done p :
      Job_State (jobPtr w) ≠ JobState_JOB_FAILURE →
      pipelines (store w) !! Job_Pipeline (jobPtr w) = Some p →
      recognized state → (stamped state → is_Some stamp) →
      UpdateJobState_ends state reason stamp w
        (Ok (), job_written w p state reason stamp).

(** A field is set once when a call that finds it set leaves it as it is. *)
Definition kept_once_set {A} (before after : option A) : Prop :=
  is_Some before → after = before.

(** Two readings of the clock, ten minutes apart. *)
Definition t_early : Timestamp := mkTimestamp 1500000000 0.
Definition t_late : Timestamp := mkTimestamp 1500000600 0.

(** A pipeline that has not counted any job yet: its count map is nil. *)
Definition fresh_pipeline : EtcdPipelineInfo :=
  mkPipeline PipelineState_PIPELINE_RUNNING "" None None JobState_JOB_STARTING.

(** A pipeline with two jobs starting and one running. *)
Definition busy_pipeline : EtcdPipelineInfo :=
  mkPipeline PipelineState_PIPELINE_RUNNING "" None
    (Some {[JobState_JOB_STARTING := 2; JobState_JOB_RUNNING := 1]})
    JobState_JOB_RUNNING.

(** A pipeline whose one job has succeeded. *)
Definition idle_pipeline : EtcdPipelineInfo :=
  mkPipeline PipelineState_PIPELINE_RUNNING "" None
    (Some {[JobState_JOB_SUCCESS := 1]}) JobState_JOB_SUCCESS.

(** The job [job-1] of the pipeline [edges], started at [t_early]. *)
Definition job_in (state : JobState) (finished : option Timestamp)
  : EtcdJobInfo :=
  mkJob "job-1" "edges" None 0 state "" (Some t_early) finished.

(** The store with that pipeline and that job, and the job at hand. *)
Definition world_of (p : EtcdPipelineInfo) (j : EtcdJobInfo) : World :=
  mkWorld (mkStore {["edges" := p]} {[Job_ID j := j]}) j.

(** ** Resource lists *)

Section ResourceListSpec.
Context {Quantity float32 : Type}.
Context (ParseQuantity : string → Quantity * bool).
Context (Cmp : Quantity → Quantity → Z).

(** The GPU entry is written last, under the type the spec gives as its
    name; it lands on another entry when that type is one of the three
    names the function uses itself. *)
Definition gpu_type_apart (resources : ResourceSpec float32) : Prop :=
  ∀ gpu, Gpu resources = Some gpu →
    Gpu_Type gpu ≠ ResourceCPU ∧ Gpu_Type gpu ≠ ResourceMemory
    ∧ Gpu_Type gpu ≠ ResourceEphemeralStorage.

(** What the sanity check on the cache size makes of the memory entry. *)
Definition cache_exceeds (resources : ResourceSpec float32)
    (cacheSize : string) : Prop :=
  (ParseQuantity cacheSize).2 = false
  ∧ Cmp (ParseQuantity cacheSize).1 (ParseQuantity (Memory resources)).1 > 0.

#[global] Instance cache_exceeds_dec resources cacheSize :
  Decision (cache_exceeds resources cacheSize).
Proof. unfold cache_exceeds. apply _. Defined.
End ResourceListSpec.

(** *** A parser to run the examples with *)

(** Quantities as whole numbers of millionths.  The parser reads a decimal
    numeral with an optional fraction of at most six digits and an optional
    suffix [k], [M] or [G], as the Kubernetes parser reads such strings, and
    fails on everything else, the empty string included. *)
Fixpoint read_digits (s : string) (acc : Z) (n : nat) : Z * nat * string :=
  match s with
  | String c s' =>
      let d := Z.of_nat (Ascii.nat_of_ascii c) - 48 in
      if bool_decide (0 ≤ d ≤ 9) then read_digits s' (10 * acc + d) (S n)
      else (acc, n, s)
  | EmptyString => (acc, n, s)
  end.

Definition micro_ParseQuantity (s : string) : Z * bool :=
  let '(whole, n, rest) := read_digits s 0 0 in
  let '(frac, m, rest) :=
    match rest with
    | String "."%char rest' => read_digits rest' 0 0
    | _ => (0, 0%nat, rest)
    end in
  if bool_decide (n = 0%nat ∨ (6 < m)%nat) then (0, true)
  else
    let micro := whole * 10 ^ 6 + frac * 10 ^ Z.of_nat (6 - m) in
    if bool_decide (rest = "") then (micro, false)
    else if bool_decide (rest = "k") then (micro * 10 ^ 3, false)
    else if bool_decide (rest = "M") then (micro * 10 ^ 6, false)
    else if bool_decide (rest = "G") then (micro * 10 ^ 9, false)
    else (0, true).

Definition micro_Cmp (a b : Z) : Z :=
  match a ?= b with Lt => -1 | Eq => 0 | Gt => 1 end.

(** A cpu request: a whole number of cores, or not a number. *)
Inductive cores : Type := whole_cores (n : N) | not_a_number.

Definition cores_Sprintf_f (c : cores) : string :=
  match c with
  | whole_cores n => pretty n +:+ ".000000"
  | not_a_number => "NaN"
  end.

Definition micro_resourceList :=
  getResourceListFromSpec Z micro_ParseQuantity micro_Cmp cores
    cores_Sprintf_f pretty.

(** ** Job inputs *)

(** Induction on input trees: a property of all nodes follows when it
    passes from the children of a node to the node. *)
Fixpoint Input_ind (P : Input → Prop)
    (step : ∀ pfs cross union cron git,
        Forall P cross → Forall P union →
        P (mkInput pfs cross union cron git))
    (input : Input) : P input :=
  match input with
  | mkInput pfs cross union cron git =>
      let all :=
        fix all (l : list Input) : Forall P l :=
          match l with
          | [] => @List.Forall_nil _ P
          | i :: l' =>
              @List.Forall_cons _ P i l' (Input_ind P step i) (all l')
          end in
      step pfs cross union cron git (all cross) (all union)
  end.

Section JobInputSpec.
Context (key : string → string → string).

(** The key an entry of the provenance is filed under. *)
Definition key_of (prov : CommitProvenance) : string :=
  key (Commit_Repo (Prov_Commit prov)) (Branch_Name (Prov_Branch prov)).

(** In the spec's words: the commit the provenance has for a repository
    and a branch is that of its entry filed under the two, the last one
    when there are several. *)
Definition provenance_commit (Provenance : list CommitProvenance)
    (repo branch : string) : option Commit :=
  Prov_Commit <$>
    last (filter (λ prov, key_of prov = key repo branch) Provenance).

(** The commit field of a leaf after resolution: the id of that commit,
    or the field as it was when the provenance has none. *)
Definition pinned (Provenance : list CommitProvenance)
    (repo branch : string) (unresolved : string) : string :=
  match provenance_commit Provenance repo branch with
  | Some commit => Commit_ID commit
  | None => unresolved
  end.

(** A leaf and its resolution, field by field: what identifies the leaf is
    as it was, and the commit is the one pinned by the two names the leaf
    is looked up under: repository and branch for a filesystem-branch
    leaf, repository and [master] for a time-triggered leaf, name and
    branch for a version-control leaf. *)
Definition pfs_resolved (Provenance : list CommitProvenance)
    (l l' : PFSInput) : Prop :=
  Pfs_Name l' = Pfs_Name l ∧ Pfs_Repo l' = Pfs_Repo l
  ∧ Pfs_Branch l' = Pfs_Branch l ∧ Pfs_Glob l' = Pfs_Glob l
  ∧ Pfs_Commit l'
    = pinned Provenance (Pfs_Repo l) (Pfs_Branch l) (Pfs_Commit l).

Definition cron_resolved (Provenance : list CommitProvenance)
    (l l' : CronInput) : Prop :=
  Cron_Name l' = Cron_Name l ∧ Cron_Repo l' = Cron_Repo l
  ∧ Cron_Spec l' = Cron_Spec l
  ∧ Cron_Commit l' = pinned Provenance (Cron_Repo l) "master" (Cron_Commit l).

Definition git_resolved (Provenance : list CommitProvenance)
    (l l' : GitInput) : Prop :=
  Git_Name l' = Git_Name l ∧ Git_URL l' = Git_URL l
  ∧ Git_Branch l' = Git_Branch l
  ∧ Git_Commit l'
    = pinned Provenance (Git_Name l) (Git_Branch l) (Git_Commit l).

#[local] Unset Elimination Schemes.
(** A tree and its resolution: the same shape, a node of the one has the
    leaves the node of the other has, and each leaf of the second is the
    resolution of the leaf of the first. *)
Inductive resolved (Provenance : list CommitProvenance)
  : Input → Input → Prop :=
  | resolved_node pfs cross union cron git pfs' cross' union' cron' git' :
      option_Forall2 (pfs_resolved Provenance) pfs pfs' →
      Forall2 (resolved Provenance) cross cross' →
      Forall2 (resolved Provenance) union union' →
      option_Forall2 (cron_resolved Provenance) cron cron' →
      option_Forall2 (git_resolved Provenance) git git' →
      resolved Provenance
        (mkInput pfs cross union cron git)
        (mkInput pfs' cross' union' cron' git').
#[local] Set Elimination Schemes.
End JobInputSpec.

Section JobInputKeys.
Context (key : string → string → string).

(** The keys [JobInput] looks up in its index, one for every leaf of the
    tree. *)
Fixpoint input_keys (input : Input) : list string :=
  match input with
  | mkInput pfs cross union cron git =>
      (if pfs is Some l then [key (Pfs_Repo l) (Pfs_Branch l)] else [])
      ++ (if cron is Some l then [key (Cron_Repo l) "master"] else [])
      ++ (if git is Some l then [key (Git_Name l) (Git_Branch l)] else [])
      ++ concat (map input_keys cross) ++ concat (map input_keys union)
  end.
End JobInputKeys.

(** A tree with the commit field of every leaf blanked: what is left is
    everything [JobInput] has no business with. *)
Definition without_commits (input : Input) : Input :=
  VisitInput
    (λ node,
       mkInput (set_Pfs_Commit "" <$> Pfs node) (Cross node) (Union node)
               (set_Cron_Commit "" <$> Cron node)
               (set_Git_Commit "" <$> Git node))
    input.

(** Keys as [path.Join] makes them of two names without slashes. *)
Definition slash_key (repo branch : string) : string :=
  repo +:+ "/" +:+ branch.

(** ** Parallelism *)

(** A cluster of [n] nodes, and the coefficient 0.5. *)
Definition cluster_of (n : nat) : Clientset :=
  mkClientset (Some (replicate n "node")).

Definition one_half : Float64.float64 :=
  SpecFloat.S754_finite false (2 ^ 52) (-53).

(** ** Names of replication controllers *)

(** The characters Kubernetes is said to refuse in a name are the
    underscore and the upper-case letters. *)
Definition rc_char (c : ascii) : bool :=
  negb (bool_decide (c = "_"%char)) && negb (is_upper c).

Definition is_digit (c : ascii) : bool :=
  bool_decide (N_of_ascii "0" ≤ N_of_ascii c ≤ N_of_ascii "9")%N.

(** A function for the strings left to Unicode, to run examples with. *)
Definition no_ToLower (s : string) : string := s.

(** ** Calls in sequence, and what the counts are counts of *)

(** A call of [UpdateJobState], by its arguments. *)
Record Call : Type := mkCall {
  call_state : JobState;
  call_reason : string;
  call_stamp : option Timestamp
}.

(** The calls of a list made one after the other on the same job record,
    each on what the one before left, with what each returned. *)
Fixpoint run_calls (calls : list Call) (w : World)
  : list (Result unit) * World :=
  match calls with
  | [] => ([], w)
  | c :: calls =>
      let '(r, w) :=
        UpdateJobState (call_state c) (call_reason c) (call_stamp c) w in
      let '(rs, w) := run_calls calls w in
      (r :: rs, w)
  end.

(** The number of job records of a pipeline that are in a state. *)
Definition jobs_in (s : Store) (pipeline : string) (state : JobState) : nat :=
  size (filter (λ kv : string * EtcdJobInfo,
                  Job_Pipeline kv.2 = pipeline ∧ Job_State kv.2 = state)
               (jobs s)).

(** The counts of every pipeline record are the numbers of its job records,
    state by state. *)
Definition counts_accurate (s : Store) : Prop :=
  ∀ name p state,
    pipelines s !! name = Some p →
    map_read (Pipeline_JobCounts p) state = Z.of_nat (jobs_in s name state).

(** A world whose counts are accurate: the pipeline [edges] with one job
    counted as starting, and that job, [job-1], in the store and at hand. *)
Definition tidy_world : World :=
  world_of (set_JobCounts (Some {[JobState_JOB_STARTING := 1]}) fresh_pipeline)
           (job_in JobState_JOB_STARTING None).

(** The same pipeline and job in the store, and at hand a second job of
    the pipeline, [job-2], as it is before it is stored: in the state a new
    record has, [STARTING]. *)
Definition crowded_world : World :=
  mkWorld (store tidy_world)
          (mkJob "job-2" "edges" None 0 JobState_JOB_STARTING "" None None).

(** * Properties *)

(** ** Reading the count map and telling the states apart *)

(** The six states are numbers: what follows from their being distinct is
    linear arithmetic. *)
Ltac states :=
  unfold recognized, terminal, in_progress, JobState_JOB_STARTING,
    JobState_JOB_RUNNING, JobState_JOB_MERGING, JobState_JOB_SUCCESS,
    JobState_JOB_FAILURE, JobState_JOB_KILLED, JobState in *;
  lia.

Lemma map_read_nil k : map_read None k = 0.
Proof. reflexivity. Qed.

Lemma map_read_empty k : map_read (Some ∅) k = 0.
Proof. unfold map_read. cbn. by rewrite lookup_empty. Qed.

Lemma map_read_default (c : option (gmap Z Z)) k :
  map_read (Some (default ∅ c)) k = map_read c k.
Proof. destruct c; [done|]. by rewrite map_read_empty. Qed.

Lemma map_read_insert (g : gmap Z Z) k v k' :
  map_read (Some (<[k := v]> g)) k' =
  if decide (k = k') then v else map_read (Some g) k'.
Proof. unfold map_read. cbn. rewrite lookup_insert. by case_decide. Qed.

Lemma terminal_not_in_progress state : terminal state → ¬ in_progress state.
Proof. states. Qed.

Lemma IsTerminal_recognized state :
  recognized state → IsTerminal state = Ok (bool_decide (terminal state)).
Proof.
  unfold IsTerminal. intros H. fold (terminal state) (in_progress state).
  destruct (decide (terminal state)) as [Ht|Ht].
  - by rewrite !bool_decide_true.
  - rewrite !(bool_decide_false _ Ht). rewrite bool_decide_true; [done|].
    by destruct H.
Qed.

Lemma IsTerminal_unrecognized state :
  ¬ recognized state → IsTerminal state = Panic (UnrecognizedJobState state).
Proof.
  unfold IsTerminal. intros H. fold (terminal state) (in_progress state).
  rewrite !bool_decide_false; [done| |]; intros ?; apply H; [by right|by left].
Qed.

(** *** No write ever meets a nil map *)

Lemma count_transition_ok old state p :
  count_transition old state p = Ok (pipeline_step p old state).
Proof.
  unfold count_transition, pipeline_step, counts_step, JobCounts_store.
  destruct p as [st rs sc [g|] ls]; cbn -[wrap32 map_read];
    case_bool_decide; cbn -[wrap32 map_read]; reflexivity.
Qed.

(** *** The second half: timestamps, state and reason *)

Lemma stamp_job_STARTING stamp w :
  stamp_job JobState_JOB_STARTING stamp w =
  (if stamp is None then Err TimestampError else Ok (),
   mkWorld (store w) (set_Job_Started stamp (jobPtr w))).
Proof. unfold stamp_job. cbn. by destruct stamp. Qed.

Lemma stamp_job_terminal state stamp w :
  state ≠ JobState_JOB_STARTING → terminal state →
  stamp_job state stamp w =
  (if stamp is None then Err TimestampError else Ok (),
   mkWorld (store w) (set_Job_Finished stamp (jobPtr w))).
Proof.
  intros Hs Ht. unfold stamp_job. rewrite bool_decide_false by done.
  unfold bind, lift. rewrite IsTerminal_recognized by (by left).
  rewrite bool_decide_true by done. cbn. by destruct stamp.
Qed.

Lemma stamp_job_in_progress state stamp w :
  state ≠ JobState_JOB_STARTING → in_progress state →
  stamp_job state stamp w = (Ok (), w).
Proof.
  intros Hs Ht. unfold stamp_job. rewrite bool_decide_false by done.
  unfold bind, lift. rewrite IsTerminal_recognized by (by right).
  rewrite bool_decide_false; [done|].
  intros ?. by eapply terminal_not_in_progress.
Qed.

Lemma stamp_job_unrecognized state stamp w :
  ¬ recognized state →
  stamp_job state stamp w = (Panic (UnrecognizedJobState state), w).
Proof.
  intros Hs. unfold stamp_job. rewrite bool_decide_false.
  - unfold bind, lift. by rewrite IsTerminal_unrecognized.
  - intros ->. apply Hs. right. by left.
Qed.

(** *** The whole transition *)

Lemma UpdateJobState_guard state reason stamp w :
  Job_State (jobPtr w) = JobState_JOB_FAILURE →
  UpdateJobState state reason stamp w =
  (Err (IllegalTransition (Job_ID (jobPtr w)) state), w).
Proof.
  intros Hf. unfold UpdateJobState, bind, get_jobPtr.
  by rewrite bool_decide_true.
Qed.

Lemma UpdateJobState_no_pipeline state reason stamp w :
  Job_State (jobPtr w) ≠ JobState_JOB_FAILURE →
  pipelines (store w) !! Job_Pipeline (jobPtr w) = None →
  UpdateJobState state reason stamp w =
  (Err (NotFound (Job_Pipeline (jobPtr w))), w).
Proof.
  intros Hf Hp. unfold UpdateJobState, bind, get_jobPtr.
  rewrite bool_decide_false by done.
  unfold on_store, pipelines_Get. rewrite Hp. by destruct w.
Qed.

Lemma UpdateJobState_past_read state reason stamp w p :
  Job_State (jobPtr w) ≠ JobState_JOB_FAILURE →
  pipelines (store w) !! Job_Pipeline (jobPtr w) = Some p →
  UpdateJobState state reason stamp w =
  (stamp_job state stamp ;;
   update_jobPtr (set_Job_State state) ;;
   update_jobPtr (set_Job_Reason reason) ;;
   do j <- get_jobPtr; on_store (jobs_Put (Job_ID j) j))
    (pipeline_written w p state).
Proof.
  intros Hf Hp. unfold UpdateJobState at 1, bind at 1, get_jobPtr at 1.
  rewrite bool_decide_false by done.
  unfold bind at 1, on_store at 1, pipelines_Get. rewrite Hp.
  unfold bind at 1, lift. rewrite count_transition_ok.
  unfold bind at 1, on_store at 1, pipelines_Put. reflexivity.
Qed.

Lemma UpdateJobState_done state reason stamp w p :
  Job_State (jobPtr w) ≠ JobState_JOB_FAILURE →
  pipelines (store w) !! Job_Pipeline (jobPtr w) = Some p →
  recognized state →
  (stamped state → is_Some stamp) →
  UpdateJobState state reason stamp w =
  (Ok (), job_written w p state reason stamp).
Proof.
  intros Hf Hp Hr Hs. rewrite (UpdateJobState_past_read _ _ _ _ p) by done.
  unfold bind at 1, job_written, job_step.
  destruct (decide (state = JobState_JOB_STARTING)) as [->|Hn].
  - destruct Hs as [t ->]; [by left|].
    rewrite stamp_job_STARTING. rewrite bool_decide_true by done. reflexivity.
  - rewrite (bool_decide_false _ Hn). destruct Hr as [Ht|Hi].
    + destruct Hs as [t ->]; [by right|].
      rewrite stamp_job_terminal by done.
      rewrite bool_decide_true by done. reflexivity.
    + rewrite stamp_job_in_progress by done.
      rewrite bool_decide_false; [reflexivity|].
      intros ?. by eapply terminal_not_in_progress.
Qed.

Lemma UpdateJobState_no_timestamp state reason w p :
  Job_State (jobPtr w) ≠ JobState_JOB_FAILURE →
  pipelines (store w) !! Job_Pipeline (jobPtr w) = Some p →
  stamped state →
  UpdateJobState state reason None w =
  (Err TimestampError,
   mkWorld (store (pipeline_written w p state))
           (job_unstamped (jobPtr w) state)).
Proof.
  intros Hf Hp Hs. rewrite (UpdateJobState_past_read _ _ _ _ p) by done.
  unfold bind at 1, job_unstamped.
  destruct (decide (state = JobState_JOB_STARTING)) as [->|Hn].
  - by rewrite stamp_job_STARTING.
  - destruct Hs as [?|Ht]; [done|].
    rewrite stamp_job_terminal by done. by rewrite bool_decide_false.
Qed.

Lemma UpdateJobState_unrecognized state reason stamp w p :
  Job_State (jobPtr w) ≠ JobState_JOB_FAILURE →
  pipelines (store w) !! Job_Pipeline (jobPtr w) = Some p →
  ¬ recognized state →
  UpdateJobState state reason stamp w =
  (Panic (UnrecognizedJobState state), pipeline_written w p state).
Proof.
  intros Hf Hp Hr. rewrite (UpdateJobState_past_read _ _ _ _ p) by done.
  unfold bind at 1. by rewrite stamp_job_unrecognized.
Qed.

Lemma UpdateJobState_cases state reason stamp w :
  UpdateJobState_ends state reason stamp w
    (UpdateJobState state reason stamp w).
Proof.
  destruct (decide (Job_State (jobPtr w) = JobState_JOB_FAILURE)) as [Hf|Hf].
  { rewrite UpdateJobState_guard by done. by constructor. }
  destruct (pipelines (store w) !! Job_Pipeline (jobPtr w)) as [p|] eqn:Hp.
  2: { rewrite UpdateJobState_no_pipeline by done. by constructor. }
  destruct (decide (recognized state)) as [Hr|Hr].
  2: { rewrite (UpdateJobState_unrecognized _ _ _ _ p) by done.
       by constructor. }
  destruct (decide (stamped state)) as [Hs|Hs], stamp as [t|].
  - rewrite (UpdateJobState_done _ _ _ _ p) by done. by constructor.
  - rewrite (UpdateJobState_no_timestamp _ _ _ p) by done. by econstructor.
  - rewrite (UpdateJobState_done _ _ _ _ p) by done. by constructor.
  - rewrite (UpdateJobState_done _ _ _ _ p) by done. by constructor.
Qed.

(** ** The guard on [JOB_FAILURE] *)

(** C1: [UpdateJobState] ends in the illegal-transition error exactly when
    the job is in [JOB_FAILURE]; the call then returns before any read or
    write, so the store and the job record are what they were.  From every
    other state of the job, [JOB_SUCCESS] and [JOB_KILLED] included, the
    call goes on: with the pipeline record present, a recognized new state
    and a clock reading it commits both records. *)
Theorem UpdateJobState_rejects_exactly_failure state reason stamp w :
  ((∃ job s, (UpdateJobState state reason stamp w).1
             = Err (IllegalTransition job s))
   ↔ Job_State (jobPtr w) = JobState_JOB_FAILURE)
  ∧ (Job_State (jobPtr w) = JobState_JOB_FAILURE →
     UpdateJobState state reason stamp w
     = (Err (IllegalTransition (Job_ID (jobPtr w)) state), w))
  ∧ (Job_State (jobPtr w) ≠ JobState_JOB_FAILURE →
     ∀ p, pipelines (store w) !! Job_Pipeline (jobPtr w) = Some p →
          recognized state → is_Some stamp →
          UpdateJobState state reason stamp w
          = (Ok (), job_written w p state reason stamp)
          ∧ Job_State (jobPtr (job_written w p state reason stamp)) = state).
Proof.
  split; [split|split].
  - intros (job & s & H).
    destruct (UpdateJobState_cases state reason stamp w); cbn in H;
      done.
  - intros Hf. rewrite UpdateJobState_guard by done. cbn. eauto.
  - apply UpdateJobState_guard.
  - intros Hf p Hp Hr Hs. split; [by apply UpdateJobState_done|reflexivity].
Qed.

Lemma UpdateJobState_rejects_exactly_failure_witness :
  let failed := world_of busy_pipeline
                  (job_in JobState_JOB_FAILURE (Some t_early)) in
  let succeeded := world_of idle_pipeline
                     (job_in JobState_JOB_SUCCESS (Some t_early)) in
  UpdateJobState JobState_JOB_RUNNING "again" (Some t_late) failed
  = (Err (IllegalTransition "job-1" JobState_JOB_RUNNING), failed)
  ∧ (UpdateJobState JobState_JOB_KILLED "killed" (Some t_late) succeeded).1
    = Ok ().
Proof.
  cbv zeta. split.
  - apply (UpdateJobState_rejects_exactly_failure JobState_JOB_RUNNING
             "again" (Some t_late)
             (world_of busy_pipeline
                (job_in JobState_JOB_FAILURE (Some t_early)))).
    reflexivity.
  - destruct (UpdateJobState_rejects_exactly_failure JobState_JOB_KILLED
                "killed" (Some t_late)
                (world_of idle_pipeline
                   (job_in JobState_JOB_SUCCESS (Some t_early))))
      as (_ & _ & H).
    destruct (H ltac:(by vm_compute) idle_pipeline eq_refl
                ltac:(states) ltac:(by eauto)) as [-> _].
    reflexivity.
Defined.

(** ** States outside the enumeration *)

(** C9: [IsTerminal] has no answer for a state outside the six of the
    enumeration: it panics, and never returns an error.  [UpdateJobState]
    therefore does not return on such a new state once it is past the guard
    and the read of the pipeline record: it panics, the pipeline record
    already written and the job record untouched; it never reports
    success. *)
Theorem UpdateJobState_panics_outside_enumeration state :
  ¬ recognized state →
  IsTerminal state = Panic (UnrecognizedJobState state)
  ∧ (∀ s e, IsTerminal s ≠ Err e)
  ∧ (∀ reason stamp w p,
       Job_State (jobPtr w) ≠ JobState_JOB_FAILURE →
       pipelines (store w) !! Job_Pipeline (jobPtr w) = Some p →
       UpdateJobState state reason stamp w
       = (Panic (UnrecognizedJobState state), pipeline_written w p state))
  ∧ (∀ reason stamp w, (UpdateJobState state reason stamp w).1 ≠ Ok ()).
Proof.
  intros Hr. split; [by apply IsTerminal_unrecognized|]. split; [|split].
  - intros s e. unfold IsTerminal. by repeat case_bool_decide.
  - intros. by apply UpdateJobState_unrecognized.
  - intros reason stamp w.
    by destruct (UpdateJobState_cases state reason stamp w).
Qed.

Lemma UpdateJobState_panics_outside_enumeration_witness :
  IsTerminal 6 = Panic (UnrecognizedJobState 6)
  ∧ UpdateJobState 6 "" (Some t_late)
      (world_of busy_pipeline (job_in JobState_JOB_RUNNING None))
    = (Panic (UnrecognizedJobState 6),
       pipeline_written
         (world_of busy_pipeline (job_in JobState_JOB_RUNNING None))
         busy_pipeline 6).
Proof.
  assert (Hr : ¬ recognized 6) by states.
  destruct (UpdateJobState_panics_outside_enumeration 6 Hr)
    as (H1 & _ & H3 & _).
  split; [exact H1|]. apply H3; [by vm_compute|reflexivity].
Defined.

(** ** A pipeline record without a count map *)

(** C10: no call writes to a nil map, whatever its input.  On a pipeline
    record whose count map is nil the call installs an empty map, finds the
    count of the job's state to be zero and leaves it alone, and sets the
    count of the new state to 1: the record written back holds exactly that
    one entry, and the call commits. *)
Theorem UpdateJobState_nil_JobCounts state reason stamp w :
  (UpdateJobState state reason stamp w).1 ≠ Panic NilMapWrite
  ∧ (∀ old p, count_transition old state p ≠ Panic NilMapWrite)
  ∧ (∀ p, Job_State (jobPtr w) ≠ JobState_JOB_FAILURE →
          pipelines (store w) !! Job_Pipeline (jobPtr w) = Some p →
          Pipeline_JobCounts p = None →
          pipelines (store (UpdateJobState state reason stamp w).2)
            !! Job_Pipeline (jobPtr w)
          = Some (set_LastJobState state
                    (set_JobCounts (Some {[state := 1]}) p))
          ∧ (recognized state → (stamped state → is_Some stamp) →
             (UpdateJobState state reason stamp w).1 = Ok ())).
Proof.
  split; [|split].
  - by destruct (UpdateJobState_cases state reason stamp w).
  - intros old p. by rewrite count_transition_ok.
  - intros p Hf Hp Hc.
    assert (Hstep : pipeline_step p (Job_State (jobPtr w)) state
                    = set_LastJobState state
                        (set_JobCounts (Some {[state := 1]}) p)).
    { unfold pipeline_step, counts_step. rewrite Hc. cbn [default].
      rewrite bool_decide_false by (rewrite map_read_empty; by intros []).
      rewrite map_read_empty. reflexivity. }
    split.
    + destruct (UpdateJobState_cases state reason stamp w) as [| |q|q|q];
        try congruence; cbn;
        replace q with p by congruence;
        by rewrite lookup_insert_eq, Hstep.
    + intros Hr Hs. by rewrite (UpdateJobState_done _ _ _ _ p).
Qed.

Lemma UpdateJobState_nil_JobCounts_witness :
  let w := world_of fresh_pipeline (job_in JobState_JOB_STARTING None) in
  let r := UpdateJobState JobState_JOB_RUNNING "" (Some t_late) w in
  r.1 = Ok ()
  ∧ Pipeline_JobCounts <$> pipelines (store r.2) !! "edges"
    = Some (Some {[JobState_JOB_RUNNING := 1]}).
Proof.
  cbv zeta.
  destruct (UpdateJobState_nil_JobCounts JobState_JOB_RUNNING ""
              (Some t_late)
              (world_of fresh_pipeline (job_in JobState_JOB_STARTING None)))
    as (_ & _ & H).
  destruct (H fresh_pipeline ltac:(by vm_compute) eq_refl eq_refl)
    as [Hp Hok].
  split.
  - apply Hok; [states|by eauto].
  - change "edges" with
      (Job_Pipeline
         (jobPtr (world_of fresh_pipeline
                    (job_in JobState_JOB_STARTING None)))).
    by rewrite Hp.
Defined.

(** ** Timestamps *)

(** Against C7 as stated: the finished timestamp is set again on a second
    entry into a terminal state.  A job that succeeded at [t_early] and is
    then killed at [t_late] has its finished timestamp moved to [t_late]. *)
Lemma finished_set_on_every_terminal_entry :
  let w := world_of idle_pipeline
             (job_in JobState_JOB_SUCCESS (Some t_early)) in
  let r := UpdateJobState JobState_JOB_KILLED "killed" (Some t_late) w in
  r.1 = Ok ()
  ∧ Job_Finished (jobPtr w) = Some t_early
  ∧ Job_Finished (jobPtr r.2) = Some t_late
  ∧ ¬ kept_once_set (Job_Finished (jobPtr w)) (Job_Finished (jobPtr r.2)).
Proof.
  cbv zeta.
  rewrite (UpdateJobState_done _ _ _ _ idle_pipeline);
    [|by vm_compute|reflexivity|states|by eauto].
  repeat split. intros H. by specialize (H (mk_is_Some _ _ eq_refl)).
Qed.

(** The started timestamp is likewise set on every transition to
    [STARTING]. *)
Lemma started_set_on_every_STARTING :
  let w := world_of busy_pipeline (job_in JobState_JOB_STARTING None) in
  let r := UpdateJobState JobState_JOB_STARTING "" (Some t_late) w in
  r.1 = Ok ()
  ∧ Job_Started (jobPtr w) = Some t_early
  ∧ Job_Started (jobPtr r.2) = Some t_late.
Proof.
  cbv zeta.
  rewrite (UpdateJobState_done _ _ _ _ busy_pipeline);
    [|by vm_compute|reflexivity|states|by eauto].
  by repeat split.
Qed.

(** C7 (as amended): a committed transition to [STARTING] sets the started
    timestamp to the clock reading and leaves the finished one; a committed
    transition to a terminal state sets the finished timestamp to the clock
    reading and leaves the started one, whether or not the job had been in a
    terminal state before; a committed transition to [RUNNING] or [MERGING]
    leaves both.  The job record written to the store is the one left in
    memory. *)
Theorem UpdateJobState_timestamps state reason stamp w w' :
  UpdateJobState state reason stamp w = (Ok (), w') →
  let j := jobPtr w in
  let j' := jobPtr w' in
  jobs (store w') !! Job_ID j = Some j'
  ∧ (state = JobState_JOB_STARTING →
     is_Some stamp ∧ Job_Started j' = stamp
     ∧ Job_Finished j' = Job_Finished j)
  ∧ (terminal state →
     is_Some stamp ∧ Job_Finished j' = stamp
     ∧ Job_Started j' = Job_Started j)
  ∧ (state = JobState_JOB_RUNNING ∨ state = JobState_JOB_MERGING →
     Job_Started j' = Job_Started j ∧ Job_Finished j' = Job_Finished j).
Proof.
  intros H. destruct (UpdateJobState_cases state reason stamp w)
    as [| | | |p Hf Hp Hr Hs]; try discriminate.
  injection H as <-. cbn. unfold job_step. split; [|split; [|split]].
  - by rewrite lookup_insert_eq.
  - intros ->. rewrite bool_decide_true by done.
    split; [apply Hs; by left|done].
  - intros Ht. rewrite bool_decide_false by states.
    rewrite bool_decide_true by done. split; [apply Hs; by right|done].
  - intros Hi. rewrite !bool_decide_false by states. done.
Qed.

Lemma UpdateJobState_timestamps_witness :
  let w := world_of idle_pipeline
             (job_in JobState_JOB_SUCCESS (Some t_early)) in
  let w' := (UpdateJobState JobState_JOB_KILLED "killed" (Some t_late) w).2 in
  Job_Finished (jobPtr w') = Some t_late
  ∧ Job_Started (jobPtr w') = Some t_early.
Proof.
  cbv zeta.
  pose proof (UpdateJobState_timestamps JobState_JOB_KILLED "killed"
                (Some t_late)
                (world_of idle_pipeline
                   (job_in JobState_JOB_SUCCESS (Some t_early)))
                _ eq_refl) as (_ & _ & H & _).
  destruct H as (_ & H1 & H2); [right; by right|]. by split.
Defined.

(** ** [FailPipeline] *)

(** C8: [FailPipeline] fails with the not-found error of the read, the
    store unchanged, when there is no record under the pipeline's name.
    Otherwise it succeeds and the store differs in that one record only,
    which has its state set to [PIPELINE_FAILURE] and its reason to the one
    given: the job counts, the last job state and the spec commit of the
    record, the other pipeline records and all job records are as before.
    A second call on the result succeeds as well and leaves the state at
    [PIPELINE_FAILURE], with the second reason. *)
Theorem FailPipeline_spec pipelineName reason s :
  (pipelines s !! pipelineName = None →
   FailPipeline pipelineName reason s = (Err (NotFound pipelineName), s))
  ∧ (∀ p, pipelines s !! pipelineName = Some p →
     ∃ p' s',
       FailPipeline pipelineName reason s = (Ok (), s')
       ∧ pipelines s' = <[pipelineName := p']> (pipelines s)
       ∧ jobs s' = jobs s
       ∧ Pipeline_State p' = PipelineState_PIPELINE_FAILURE
       ∧ Pipeline_Reason p' = reason
       ∧ Pipeline_JobCounts p' = Pipeline_JobCounts p
       ∧ Pipeline_LastJobState p' = Pipeline_LastJobState p
       ∧ Pipeline_SpecCommit p' = Pipeline_SpecCommit p
       ∧ ∀ reason2, ∃ p'' s'',
           FailPipeline pipelineName reason2 s' = (Ok (), s'')
           ∧ pipelines s'' = <[pipelineName := p'']> (pipelines s)
           ∧ jobs s'' = jobs s
           ∧ Pipeline_State p'' = PipelineState_PIPELINE_FAILURE
           ∧ Pipeline_Reason p'' = reason2
           ∧ Pipeline_JobCounts p'' = Pipeline_JobCounts p).
Proof.
  split.
  - intros Hp. unfold FailPipeline, NewSTM, bind, pipelines_Get.
    by rewrite Hp.
  - intros p Hp. unfold FailPipeline, NewSTM, bind, drop_error,
      pipelines_Get, pipelines_Put, ret. rewrite Hp. cbn.
    set (failed r q :=
           set_Pipeline_Reason r
             (set_Pipeline_State PipelineState_PIPELINE_FAILURE q)).
    exists (failed reason p). eexists. repeat split.
    intros reason2. cbn. rewrite lookup_insert_eq. cbn.
    exists (failed reason2 (failed reason p)). eexists. repeat split.
    cbn. by rewrite insert_insert_eq.
Qed.

Lemma FailPipeline_spec_witness :
  let s := store (world_of busy_pipeline (job_in JobState_JOB_RUNNING None)) in
  FailPipeline "nowhere" "out of memory" s = (Err (NotFound "nowhere"), s)
  ∧ ∃ s', FailPipeline "edges" "out of memory" s = (Ok (), s')
      ∧ jobs s' = jobs s
      ∧ Pipeline_State <$> pipelines s' !! "edges"
        = Some PipelineState_PIPELINE_FAILURE
      ∧ Pipeline_JobCounts <$> pipelines s' !! "edges"
        = Some (Pipeline_JobCounts busy_pipeline).
Proof.
  cbv zeta. split.
  - by apply (FailPipeline_spec "nowhere" "out of memory").
  - destruct (FailPipeline_spec "edges" "out of memory"
                (store (world_of busy_pipeline
                          (job_in JobState_JOB_RUNNING None))))
      as [_ H].
    destruct (H busy_pipeline eq_refl)
      as (p' & s' & Hrun & Hps & Hjobs & Hst & _ & Hc & _).
    exists s'. split; [exact Hrun|]. split; [exact Hjobs|].
    rewrite Hps, lookup_insert_eq. cbn. by rewrite Hst, Hc.
Defined.

(** ** Job counts *)

Lemma wrap32_id z : is_int32 z → wrap32 z = z.
Proof.
  unfold is_int32, wrap32. intros H.
  rewrite Z.mod_small by lia. lia.
Qed.

Lemma counts_sum_insert (g : gmap Z Z) k v :
  counts_sum (Some (<[k := v]> g))
  = counts_sum (Some g) - map_read (Some g) k + v.
Proof.
  assert (Hfresh : ∀ (m : gmap Z Z) x, m !! k = None →
            counts_sum (Some (<[k := x]> m)) = x + counts_sum (Some m)).
  { intros m x Hm. unfold counts_sum. cbn [default id].
    rewrite map_fold_insert_L; [done| |done]. intros. lia. }
  unfold map_read. cbn [mbind option_bind].
  destruct (g !! k) as [x|] eqn:Hk; cbn [default id].
  - assert (Hg : counts_sum (Some g) = x + counts_sum (Some (delete k g))).
    { rewrite <- (insert_delete_id g k x) at 1 by done.
      apply Hfresh, lookup_delete_eq. }
    rewrite <- (insert_delete_eq g k v), Hg.
    rewrite Hfresh by apply lookup_delete_eq. lia.
  - rewrite Hfresh by done. lia.
Qed.

Lemma counts_sum_default (c : option (gmap Z Z)) :
  counts_sum (Some (default ∅ c)) = counts_sum c.
Proof. by destruct c. Qed.

(** The counts after a transition, entry by entry and in total, when no
    entry leaves the range of [int32]. *)
Lemma counts_step_read (c : option (gmap Z Z)) old new k :
  is_int32 (map_read c old) → 0 ≤ map_read c old →
  map_read c new < 2 ^ 31 - 1 → is_int32 (map_read c new) →
  map_read (Some (counts_step c old new)) k =
  if decide (k = new) then
    if decide (old = new) then Z.max 1 (map_read c new)
    else map_read c new + 1
  else if decide (k = old) then Z.max 0 (map_read c old - 1)
  else map_read c k.
Proof.
  unfold is_int32. intros Ho1 Ho2 Hn1 Hn2. unfold counts_step. cbv zeta.
  rewrite map_read_default. case_bool_decide as H0.
  - rewrite !map_read_insert, !map_read_default.
    repeat case_decide; subst; try done;
      rewrite !wrap32_id by (unfold is_int32; rewrite ?wrap32_id;
                             unfold is_int32; lia);
      lia.
  - rewrite !map_read_insert, !map_read_default.
    repeat case_decide; subst; try done;
      rewrite ?wrap32_id by (unfold is_int32; lia); lia.
Qed.

Lemma counts_step_sum (c : option (gmap Z Z)) old new :
  is_int32 (map_read c old) → 0 ≤ map_read c old →
  map_read c new < 2 ^ 31 - 1 → is_int32 (map_read c new) →
  counts_sum (Some (counts_step c old new)) =
  counts_sum c + (if decide (map_read c old = 0) then 1 else 0).
Proof.
  unfold is_int32. intros Ho1 Ho2 Hn1 Hn2. unfold counts_step. cbv zeta.
  rewrite map_read_default. case_bool_decide as H0.
  - rewrite !counts_sum_insert, !map_read_insert, !map_read_default,
      counts_sum_default.
    rewrite (decide_False (P := map_read c old = 0)) by done.
    case_decide; subst;
      rewrite !wrap32_id by (unfold is_int32; rewrite ?wrap32_id;
                             unfold is_int32; lia);
      lia.
  - rewrite !counts_sum_insert, !map_read_default, counts_sum_default.
    rewrite (decide_True (P := map_read c old = 0)) by done.
    rewrite wrap32_id by (unfold is_int32; lia). lia.
Qed.

(** Against C2 as stated: the sum of the counts is not kept when the count
    of the job's state is zero.  The first transition a pipeline sees, of a
    job in [STARTING] to [RUNNING] with no counts recorded, commits and
    takes the sum from 0 to 1. *)
Lemma counts_sum_grows_from_zero :
  let w := world_of fresh_pipeline (job_in JobState_JOB_STARTING None) in
  let r := UpdateJobState JobState_JOB_RUNNING "" None w in
  Job_State (jobPtr w) ≠ JobState_JOB_FAILURE
  ∧ r.1 = Ok ()
  ∧ counts_sum ∘ Pipeline_JobCounts <$> pipelines (store w) !! "edges"
    = Some 0
  ∧ counts_sum ∘ Pipeline_JobCounts <$> pipelines (store r.2) !! "edges"
    = Some 1.
Proof. cbv zeta. split; [by vm_compute|]. by vm_compute. Qed.

(** C2 (as amended): a committed transition of a job from [old] to [state],
    on a pipeline whose count of [old] is not negative and whose count of
    [state] is below the largest [int32], leaves every other count alone;
    when the two states differ it takes one from the count of [old],
    stopping at 0, and adds one to the count of [state]; when they are the
    same the count ends at the larger of 1 and what it was.  The sum of the
    counts is kept when the count of [old] was positive and grows by 1 when
    it was 0. *)
Theorem UpdateJobState_counts state reason stamp w w' p :
  UpdateJobState state reason stamp w = (Ok (), w') →
  pipelines (store w) !! Job_Pipeline (jobPtr w) = Some p →
  let old := Job_State (jobPtr w) in
  let c := map_read (Pipeline_JobCounts p) in
  is_int32 (c old) → 0 ≤ c old → is_int32 (c state) → c state < 2 ^ 31 - 1 →
  ∃ p', pipelines (store w') !! Job_Pipeline (jobPtr w) = Some p'
    ∧ let c' := map_read (Pipeline_JobCounts p') in
      (old ≠ state → c' old = Z.max 0 (c old - 1) ∧ c' state = c state + 1)
      ∧ (old = state → c' state = Z.max 1 (c state))
      ∧ (∀ k, k ≠ old → k ≠ state → c' k = c k)
      ∧ counts_sum (Pipeline_JobCounts p')
        = counts_sum (Pipeline_JobCounts p)
          + (if decide (c old = 0) then 1 else 0).
Proof.
  intros H Hp old c Ho1 Ho2 Hn1 Hn2.
  destruct (UpdateJobState_cases state reason stamp w)
    as [| | | |q Hf Hq Hr Hs]; try discriminate.
  injection H as <-. assert (q = p) as -> by congruence.
  exists (pipeline_step p old state). split.
  { cbn. by rewrite lookup_insert_eq. }
  cbv zeta.
  change (Pipeline_JobCounts (pipeline_step p old state))
    with (Some (counts_step (Pipeline_JobCounts p) old state)).
  split; [|split; [|split]].
  - intros Hne. rewrite !counts_step_read by done.
    rewrite decide_False, decide_True by done.
    by rewrite decide_True, decide_False by done.
  - intros He. rewrite counts_step_read by done.
    by rewrite !decide_True by done.
  - intros k Hk1 Hk2. rewrite counts_step_read by done.
    by rewrite !decide_False by done.
  - by apply counts_step_sum.
Qed.

Lemma UpdateJobState_counts_witness :
  let w := world_of busy_pipeline (job_in JobState_JOB_STARTING None) in
  let w' := (UpdateJobState JobState_JOB_RUNNING "" None w).2 in
  ∃ p', pipelines (store w') !! "edges" = Some p'
    ∧ map_read (Pipeline_JobCounts p') JobState_JOB_STARTING = 1
    ∧ map_read (Pipeline_JobCounts p') JobState_JOB_RUNNING = 2
    ∧ counts_sum (Pipeline_JobCounts p') = 3.
Proof.
  cbv zeta.
  destruct (UpdateJobState_counts JobState_JOB_RUNNING "" None
              (world_of busy_pipeline (job_in JobState_JOB_STARTING None))
              _ busy_pipeline eq_refl eq_refl)
    as (p' & Hp' & Hmove & _ & _ & Hsum);
    [by vm_compute|by vm_compute|by vm_compute|by vm_compute|].
  exists p'. split; [exact Hp'|].
  destruct Hmove as [H1 H2]; [by vm_compute|].
  split; [exact H1|]. split; [exact H2|exact Hsum].
Defined.

(** ** Resource lists *)

Section ResourceListProperties.
Context {Quantity float32 : Type}.
Context (ParseQuantity : string → Quantity * bool).
Context (Cmp : Quantity → Quantity → Z).
Context (Sprintf_f : float32 → string) (Sprintf_d : Z → string).

Abbreviation resourceList :=
  (getResourceListFromSpec Quantity ParseQuantity Cmp float32
     Sprintf_f Sprintf_d).

Lemma resourceList_returns resources cacheSize :
  ∃ result, resourceList (Some resources) cacheSize = Ok result.
Proof. unfold getResourceListFromSpec. eauto. Qed.

Lemma names_apart :
  ResourceCPU ≠ ResourceMemory ∧ ResourceCPU ≠ ResourceEphemeralStorage
  ∧ ResourceMemory ≠ ResourceEphemeralStorage.
Proof. by repeat split. Qed.

Lemma lookup_store_parsed name (parsed : Quantity * bool) result k :
  store_parsed Quantity name parsed result !! k =
  if decide (name = k)
  then (if parsed.2 then result !! k else Some parsed.1)
  else result !! k.
Proof.
  unfold store_parsed. destruct parsed as [q []]; cbn [fst snd].
  - by case_decide.
  - apply lookup_insert.
Qed.

(** The memory entry, when the GPU entry is not written over it. *)
Lemma resourceList_memory resources cacheSize result :
  (∀ gpu, Gpu resources = Some gpu → Gpu_Type gpu ≠ ResourceMemory) →
  resourceList (Some resources) cacheSize = Ok result →
  result !! ResourceMemory =
  if decide (cache_exceeds ParseQuantity Cmp resources cacheSize)
  then Some (ParseQuantity cacheSize).1
  else if (ParseQuantity (Memory resources)).2 then None
       else Some (ParseQuantity (Memory resources)).1.
Proof.
  intros Hg H. unfold getResourceListFromSpec in H. injection H as <-.
  pose proof names_apart as (Hcm & Hcd & Hmd).
  assert (Hgpu : ∀ r : gmap string Quantity,
            match Gpu resources with
            | Some gpu =>
                store_parsed Quantity (Gpu_Type gpu)
                  (ParseQuantity (Sprintf_d (Gpu_Number gpu))) r
            | None => r
            end !! ResourceMemory = r !! ResourceMemory).
  { intros r. destruct (Gpu resources) as [gpu|]; [|done].
    rewrite lookup_store_parsed. by rewrite decide_False by by apply Hg. }
  rewrite Hgpu. clear Hgpu.
  assert (Hbase : ∀ r : gmap string Quantity,
            r = ∅ →
            (if bool_decide (Disk resources ≠ "")
             then store_parsed Quantity ResourceEphemeralStorage
                    (ParseQuantity (Disk resources))
                    (store_parsed Quantity ResourceMemory
                       (ParseQuantity (Memory resources))
                       (store_parsed Quantity ResourceCPU
                          (ParseQuantity (Sprintf_f (Cpu resources))) r))
             else store_parsed Quantity ResourceMemory
                    (ParseQuantity (Memory resources))
                    (store_parsed Quantity ResourceCPU
                       (ParseQuantity (Sprintf_f (Cpu resources))) r))
            !! ResourceMemory
            = if (ParseQuantity (Memory resources)).2 then None
              else Some (ParseQuantity (Memory resources)).1).
  { intros r ->. case_bool_decide;
      rewrite !lookup_store_parsed;
      rewrite ?(decide_False (P := ResourceEphemeralStorage = ResourceMemory))
        by done;
      rewrite (decide_True (P := ResourceMemory = ResourceMemory)) by done;
      rewrite (decide_False (P := ResourceCPU = ResourceMemory)) by done;
      by rewrite lookup_empty. }
  destruct (decide (cache_exceeds ParseQuantity Cmp resources cacheSize))
    as [[Hc1 Hc2]|Hc].
  - rewrite Hc1. rewrite bool_decide_true by done. apply lookup_insert_eq.
  - destruct (ParseQuantity cacheSize).2 eqn:Hc1; [by apply Hbase|].
    rewrite bool_decide_false; [by apply Hbase|].
    intros Hc2. apply Hc. by split.
Qed.

(** C4 (as amended): a field that fails to parse never makes the call
    fail: the call returns a list for every spec.  When the GPU type is
    none of the names [cpu], [memory] and [ephemeral-storage], a cpu, disk
    or GPU field that fails to parse has no entry in the list, and a
    memory field that fails to parse has none either unless the cache size
    parses to more than the quantity the failed parse returned, in which
    case the memory entry is the cache size. *)
Theorem resourceList_parse_failures resources cacheSize :
  (∃ result, resourceList (Some resources) cacheSize = Ok result)
  ∧ (gpu_type_apart resources →
     ∀ result, resourceList (Some resources) cacheSize = Ok result →
       ((ParseQuantity (Sprintf_f (Cpu resources))).2 = true →
        result !! ResourceCPU = None)
       ∧ ((ParseQuantity (Memory resources)).2 = true →
          result !! ResourceMemory =
          if decide (cache_exceeds ParseQuantity Cmp resources cacheSize)
          then Some (ParseQuantity cacheSize).1 else None)
       ∧ ((ParseQuantity (Disk resources)).2 = true →
          result !! ResourceEphemeralStorage = None)
       ∧ (∀ gpu, Gpu resources = Some gpu →
            (ParseQuantity (Sprintf_d (Gpu_Number gpu))).2 = true →
            result !! Gpu_Type gpu = None)).
Proof.
  split; [apply resourceList_returns|]. intros Hg result H.
  split; [|split; [|split]].
  - intros Hcpu. unfold getResourceListFromSpec in H. injection H as <-.
    pose proof names_apart as (Hcm & Hcd & Hmd).
    destruct (Gpu resources) as [gpu|] eqn:Hgpu;
      [destruct (Hg gpu Hgpu) as (? & ? & ?)|];
      destruct (ParseQuantity cacheSize).2; repeat case_bool_decide;
      rewrite ?lookup_store_parsed, ?lookup_insert, ?lookup_store_parsed;
      repeat case_decide; try done; by rewrite ?Hcpu, ?lookup_empty.
  - intros Hmem. rewrite (resourceList_memory resources cacheSize) by
      (done || intros gpu Hgpu; by destruct (Hg gpu Hgpu) as (? & ? & ?)).
    by rewrite Hmem.
  - intros Hdisk. unfold getResourceListFromSpec in H. injection H as <-.
    pose proof names_apart as (Hcm & Hcd & Hmd).
    destruct (Gpu resources) as [gpu|] eqn:Hgpu;
      [destruct (Hg gpu Hgpu) as (? & ? & ?)|];
      destruct (ParseQuantity cacheSize).2; repeat case_bool_decide;
      rewrite ?lookup_store_parsed, ?lookup_insert, ?lookup_store_parsed;
      repeat case_decide; try done; by rewrite ?Hdisk, ?lookup_empty.
  - intros gpu Hgpu Hfail.
    unfold getResourceListFromSpec in H. injection H as <-.
    destruct (Hg gpu Hgpu) as (? & ? & ?). rewrite Hgpu.
    destruct (ParseQuantity cacheSize).2; repeat case_bool_decide;
      rewrite ?lookup_store_parsed, ?lookup_insert, ?lookup_store_parsed;
      repeat case_decide; try done; by rewrite ?Hfail, ?lookup_empty.
Qed.

(** C5 (as amended): when the GPU type is not the name [memory], the list
    holds the cache size as its memory entry whenever the cache size
    parses to more than the quantity parsed from the memory field;
    otherwise the memory entry, when there is one, is the quantity parsed
    from the memory field, and there is one exactly when that parse went
    through. *)
Theorem resourceList_cache_raises_memory resources cacheSize result :
  (∀ gpu, Gpu resources = Some gpu → Gpu_Type gpu ≠ ResourceMemory) →
  resourceList (Some resources) cacheSize = Ok result →
  (cache_exceeds ParseQuantity Cmp resources cacheSize →
   result !! ResourceMemory = Some (ParseQuantity cacheSize).1)
  ∧ (¬ cache_exceeds ParseQuantity Cmp resources cacheSize →
     (∀ q, result !! ResourceMemory = Some q →
           q = (ParseQuantity (Memory resources)).1)
     ∧ (is_Some (result !! ResourceMemory)
        ↔ (ParseQuantity (Memory resources)).2 = false)).
Proof.
  intros Hg H. rewrite (resourceList_memory resources cacheSize) by done.
  split.
  - intros Hc. by rewrite decide_True.
  - intros Hc. rewrite decide_False by done.
    destruct (ParseQuantity (Memory resources)).2; split.
    + by intros q.
    + split; [by intros []|done].
    + intros q. by intros [= <-].
    + split; [done|by eauto].
Qed.
End ResourceListProperties.

(** Against C4 as stated: a spec without a memory request, for a pipeline
    with the cache size [64M].  The memory field does not parse, and the
    list has a memory entry all the same, the cache size. *)
Lemma memory_entry_despite_parse_failure :
  let resources := mkResourceSpec (whole_cores 1) "" None "" in
  (micro_ParseQuantity (Memory resources)).2 = true
  ∧ ∃ result, micro_resourceList (Some resources) "64M" = Ok result
      ∧ result !! ResourceMemory = Some (64 * 10 ^ 12).
Proof. cbv zeta. split; [by vm_compute|]. eexists. by vm_compute. Qed.

Lemma resourceList_parse_failures_witness :
  let resources :=
    mkResourceSpec not_a_number "lots"
      (Some (mkGPUSpec "nvidia.com/gpu" 1)) "1G" in
  ∃ result, micro_resourceList (Some resources) "none" = Ok result
    ∧ result !! ResourceCPU = None ∧ result !! ResourceMemory = None.
Proof.
  cbv zeta.
  destruct (resourceList_parse_failures micro_ParseQuantity micro_Cmp
              cores_Sprintf_f pretty
              (mkResourceSpec not_a_number "lots"
                 (Some (mkGPUSpec "nvidia.com/gpu" 1)) "1G") "none")
    as [[result Hr] H].
  exists result. split; [exact Hr|].
  destruct (H ltac:(by intros gpu [= <-]) result Hr) as (Hc & Hm & _).
  split; [by apply Hc|]. by rewrite Hm.
Defined.

(** Against C5 as stated: a GPU of the type [memory] is written over the
    memory entry: with
    [1G] of memory and a cache of [2G] the memory entry is the GPU count. *)
Lemma memory_entry_overwritten_by_gpu :
  let resources :=
    mkResourceSpec (whole_cores 1) "1G" (Some (mkGPUSpec "memory" 2)) "" in
  (micro_ParseQuantity "2G").2 = false
  ∧ micro_Cmp (micro_ParseQuantity "2G").1
              (micro_ParseQuantity (Memory resources)).1 > 0
  ∧ ∃ result, micro_resourceList (Some resources) "2G" = Ok result
      ∧ result !! ResourceMemory = Some (2 * 10 ^ 6)
      ∧ result !! ResourceMemory ≠ Some (micro_ParseQuantity "2G").1.
Proof.
  cbv zeta. split; [by vm_compute|]. split; [by vm_compute|].
  eexists. split; [reflexivity|]. by vm_compute.
Qed.

Lemma resourceList_cache_raises_memory_witness :
  let resources :=
    mkResourceSpec (whole_cores 1) "1G"
      (Some (mkGPUSpec "nvidia.com/gpu" 1)) "" in
  ∃ result, micro_resourceList (Some resources) "2G" = Ok result
    ∧ result !! ResourceMemory = Some (2 * 10 ^ 15).
Proof.
  cbv zeta. eexists. split; [reflexivity|].
  refine (proj1 (resourceList_cache_raises_memory micro_ParseQuantity
                   micro_Cmp cores_Sprintf_f pretty
                   (mkResourceSpec (whole_cores 1) "1G"
                      (Some (mkGPUSpec "nvidia.com/gpu" 1)) "")
                   "2G" _ _ eq_refl) _).
  - by intros gpu [= <-].
  - by vm_compute.
Defined.

(** ** Job inputs *)

Section JobInputProperties.
Context (key : string → string → string).

Lemma index_provenance_snoc Provenance prov :
  index_provenance key (Provenance ++ [prov]) =
  <[key_of key prov := Prov_Commit prov]> (index_provenance key Provenance).
Proof. unfold index_provenance. by rewrite foldl_snoc. Qed.

(** The index built by the loop holds, under a key, the commit of the
    last entry filed under it. *)
Lemma index_provenance_lookup Provenance repo branch :
  index_provenance key Provenance !! key repo branch =
  provenance_commit key Provenance repo branch.
Proof.
  unfold provenance_commit.
  induction Provenance as [|prov Provenance IH] using rev_ind; [done|].
  rewrite index_provenance_snoc, filter_app, lookup_insert.
  rewrite filter_cons, filter_nil. case_decide as Hk.
  - by rewrite last_snoc.
  - by rewrite app_nil_r.
Qed.

Lemma provenance_commit_None Provenance repo branch :
  provenance_commit key Provenance repo branch = None ↔
  ∀ prov, prov ∈ Provenance → key_of key prov ≠ key repo branch.
Proof.
  unfold provenance_commit. rewrite fmap_None, last_None. split.
  - intros Hnil prov Hin Hk.
    assert (prov ∈ filter (λ p, key_of key p = key repo branch) Provenance)
      as Hf by (by apply list_elem_of_filter).
    rewrite Hnil in Hf. by apply not_elem_of_nil in Hf.
  - intros Hall.
    destruct (filter _ Provenance) as [|prov l] eqn:Hf; [done|].
    assert (prov ∈ filter (λ p, key_of key p = key repo branch) Provenance)
      as Hin by (rewrite Hf; left).
    apply list_elem_of_filter in Hin as [Hk Hin]. by destruct (Hall prov).
Qed.

Lemma provenance_commit_Some Provenance repo branch commit :
  provenance_commit key Provenance repo branch = Some commit →
  ∃ prov, prov ∈ Provenance ∧ key_of key prov = key repo branch
          ∧ Prov_Commit prov = commit.
Proof.
  unfold provenance_commit. rewrite fmap_Some. intros (prov & Hl & ->).
  apply last_Some_elem_of, list_elem_of_filter in Hl as [Hk Hin]. eauto.
Qed.

Lemma fill_commits_resolved Provenance pfs cross union cron git :
  fill_commits key (index_provenance key Provenance)
    (mkInput pfs cross union cron git) =
  mkInput
    ((λ l, set_Pfs_Commit
             (pinned key Provenance (Pfs_Repo l) (Pfs_Branch l) (Pfs_Commit l))
             l) <$> pfs)
    cross union
    ((λ l, set_Cron_Commit
             (pinned key Provenance (Cron_Repo l) "master" (Cron_Commit l)) l)
       <$> cron)
    ((λ l, set_Git_Commit
             (pinned key Provenance (Git_Name l) (Git_Branch l) (Git_Commit l))
             l) <$> git).
Proof.
  unfold fill_commits, pinned. f_equal.
  - destruct pfs as [l|]; [|done]. rewrite index_provenance_lookup.
    destruct l. cbn. by destruct (provenance_commit _ _ _ _).
  - destruct cron as [l|]; [|done]. rewrite index_provenance_lookup.
    destruct l. cbn. by destruct (provenance_commit _ _ _ _).
  - destruct git as [l|]; [|done]. rewrite index_provenance_lookup.
    destruct l. cbn. by destruct (provenance_commit _ _ _ _).
Qed.

(** C6: the tree [JobInput] returns is the resolution of the input of the
    pipeline against the provenance of the output commit: at every node
    the filesystem-branch leaf has the commit of the provenance entry
    filed under its repository and branch, the time-triggered leaf that of
    the entry filed under its repository and [master], whatever else the
    leaf declares, and the version-control leaf that of the entry filed
    under its name and branch; a leaf keeps its commit field as it was
    when no entry of the provenance is filed under its key.  This is said
    of the fields of the leaves returned, one by one: the commit field is
    the pinned commit, and the other fields, the leaves a node has and the
    shape of the tree are those of the input. *)
Theorem JobInput_resolves pipelineInput Provenance :
  resolved key Provenance pipelineInput (JobInput key pipelineInput Provenance)
  ∧ (∀ repo branch unresolved,
       (∀ prov, prov ∈ Provenance → key_of key prov ≠ key repo branch) →
       pinned key Provenance repo branch unresolved = unresolved)
  ∧ (∀ repo branch unresolved,
       (∃ prov, prov ∈ Provenance ∧ key_of key prov = key repo branch) →
       ∃ prov, prov ∈ Provenance ∧ key_of key prov = key repo branch
               ∧ pinned key Provenance repo branch unresolved
                 = Commit_ID (Prov_Commit prov)).
Proof.
  split; [|split].
  - unfold JobInput. cbv zeta.
    induction pipelineInput as [pfs cross union cron git IHc IHu]
      using Input_ind.
    cbn [VisitInput]. rewrite fill_commits_resolved. constructor.
    + destruct pfs as [l|]; constructor. by destruct l.
    + induction IHc; cbn; by constructor.
    + induction IHu; cbn; by constructor.
    + destruct cron as [l|]; constructor. by destruct l.
    + destruct git as [l|]; constructor. by destruct l.
  - intros repo branch unresolved Hnone. unfold pinned.
    by rewrite (proj2 (provenance_commit_None _ _ _) Hnone).
  - intros repo branch unresolved (prov & Hin & Hk). unfold pinned.
    destruct (provenance_commit key Provenance repo branch) as [c|] eqn:Hc.
    + apply provenance_commit_Some in Hc as (p & ? & ? & <-). eauto.
    + rewrite provenance_commit_None in Hc. by destruct (Hc prov).
Qed.
End JobInputProperties.

(** A tree with a leaf of each kind under one node, and a provenance with
    an entry for each: the filesystem-branch leaf on [A], branch [master],
    the time-triggered leaf on [B], the version-control leaf [hooks], branch
    [main]. *)
Lemma JobInput_resolves_witness :
  let template :=
    mkInput None
      [mkInput (Some (mkPFSInput "in" "A" "master" "" "/*")) [] [] None None;
       mkInput None [] [] (Some (mkCronInput "tick" "B" "" "@hourly")) None;
       mkInput None [] [] None
               (Some (mkGitInput "hooks" "https://example.org/hooks.git"
                                 "main" ""))]
      [] None None in
  let provenance :=
    [mkCommitProvenance (mkCommit "A" "c1") (mkBranch "A" "master");
     mkCommitProvenance (mkCommit "B" "c2") (mkBranch "B" "master");
     mkCommitProvenance (mkCommit "hooks" "c3") (mkBranch "hooks" "main")] in
  resolved slash_key provenance template
    (JobInput slash_key template provenance)
  ∧ JobInput slash_key template provenance
    = mkInput None
        [mkInput (Some (mkPFSInput "in" "A" "master" "c1" "/*")) [] [] None
                 None;
         mkInput None [] [] (Some (mkCronInput "tick" "B" "c2" "@hourly"))
                 None;
         mkInput None [] [] None
                 (Some (mkGitInput "hooks" "https://example.org/hooks.git"
                                   "main" "c3"))]
        [] None None.
Proof.
  cbv zeta. split; [|by vm_compute].
  apply (JobInput_resolves slash_key).
Defined.

(** The spec's own examples, with keys joined by a slash: a
    filesystem-branch leaf on [A], branch [master], is pinned to the commit
    the provenance has for the two; a time-triggered leaf on [A] as well,
    and it is left as it is when the provenance has [A] on another branch
    only. *)
Example JobInput_pfs_leaf :
  JobInput slash_key
    (mkInput (Some (mkPFSInput "in" "A" "master" "" "/*")) [] [] None None)
    [mkCommitProvenance (mkCommit "A" "c1") (mkBranch "A" "master")]
  = mkInput (Some (mkPFSInput "in" "A" "master" "c1" "/*")) [] [] None None.
Proof. reflexivity. Qed.

Example JobInput_cron_leaf :
  let tick := mkInput None [] [] (Some (mkCronInput "tick" "A" "" "@hourly"))
                      None in
  JobInput slash_key
    (mkInput None [tick] [] None None)
    [mkCommitProvenance (mkCommit "A" "c1") (mkBranch "A" "master")]
  = mkInput None
      [mkInput None [] [] (Some (mkCronInput "tick" "A" "c1" "@hourly")) None]
      [] None None
  ∧ JobInput slash_key
      (mkInput None [tick] [] None None)
      [mkCommitProvenance (mkCommit "A" "c2") (mkBranch "A" "staging")]
    = mkInput None [tick] [] None None.
Proof. by vm_compute. Qed.

(** ** Parallelism *)

(** *** Integers in the binary64 format *)

Module Float64Facts.
Import SpecFloat Float64.

Lemma iter_xO_value n k :
  Z.pos (Pos.iter xO n k) = Z.pos n * 2 ^ Z.pos k.
Proof.
  induction k as [|k IH] using Pos.peano_ind.
  - cbn. lia.
  - rewrite Pos.iter_succ, Pos2Z.inj_succ, Z.pow_succ_r by lia. lia.
Qed.

Lemma iter_xO_digits n k :
  digits2_pos (Pos.iter xO n k) = (digits2_pos n + k)%positive.
Proof.
  induction k as [|k IH] using Pos.peano_ind.
  - cbn. lia.
  - rewrite Pos.iter_succ. cbn [digits2_pos]. rewrite IH. lia.
Qed.

Lemma digits2_pos_bounds m :
  2 ^ (Z.pos (digits2_pos m) - 1) ≤ Z.pos m < 2 ^ Z.pos (digits2_pos m).
Proof.
  induction m as [m IH|m IH|]; cbn [digits2_pos].
  - rewrite Pos2Z.inj_succ, Z.pow_succ_r by lia.
    replace (Z.succ (Z.pos (digits2_pos m)) - 1)
      with (Z.succ (Z.pos (digits2_pos m) - 1)) by lia.
    rewrite Z.pow_succ_r by lia. lia.
  - rewrite Pos2Z.inj_succ, Z.pow_succ_r by lia.
    replace (Z.succ (Z.pos (digits2_pos m)) - 1)
      with (Z.succ (Z.pos (digits2_pos m) - 1)) by lia.
    rewrite Z.pow_succ_r by lia. lia.
  - cbn. lia.
Qed.

Lemma binary_round_aux_canonical s m e :
  digits2_pos m = 53%positive → -1074 ≤ e ≤ 971 →
  binary_round_aux prec emax s (Z.pos m) e loc_Exact = S754_finite s m e.
Proof.
  intros Hd He. unfold binary_round_aux, shr_fexp, fexp, emin, prec, emax.
  cbn [Zdigits2 shr_record_of_loc]. rewrite Hd.
  replace (Z.max (53 + e - 53) (3 - 1024 - 53) - e) with 0 by lia.
  cbn [shr shr_m loc_of_shr_record round_nearest_even shr_record_of_loc
       Zdigits2].
  rewrite Hd.
  replace (Z.max (53 + e - 53) (3 - 1024 - 53) - e) with 0 by lia.
  cbn [shr shr_m].
  destruct (Z.leb_spec e (1024 - 53)); [done|lia].
Qed.

Lemma binary_round_small s p :
  Z.pos p < 2 ^ 53 →
  ∃ m e, binary_round prec emax s p 0 = S754_finite s m e
         ∧ -52 ≤ e ≤ 0 ∧ Z.pos m = Z.pos p * 2 ^ (- e)
         ∧ digits2_pos m = 53%positive.
Proof.
  intros Hp. pose proof (digits2_pos_bounds p) as [Hd _].
  assert (Z.pos (digits2_pos p) ≤ 53) as Hle.
  { apply Z.lt_succ_r, Z.lt_sub_lt_add_r. change (Z.succ 53 - 1) with 53.
    apply (Z.pow_lt_mono_r_iff 2); lia. }
  unfold binary_round, shl_align, fexp, emin, prec, emax.
  replace (Z.max (Z.pos (digits2_pos p) + 0 - 53) (3 - 1024 - 53) - 0)
    with (Z.pos (digits2_pos p) - 53) by lia.
  destruct (Z.pos (digits2_pos p) - 53) as [|k|k] eqn:Hk; [|lia|].
  - exists p, 0. rewrite binary_round_aux_canonical by lia.
    repeat split; lia.
  - exists (Pos.iter xO p k), (- Z.pos k).
    replace (Z.max (Z.pos (digits2_pos p) + 0 - 53) (3 - 1024 - 53))
      with (- Z.pos k) by lia.
    rewrite binary_round_aux_canonical;
      [|rewrite iter_xO_digits; lia|lia].
    rewrite iter_xO_value, Z.opp_involutive. repeat split; try lia.
    rewrite iter_xO_digits; lia.
Qed.

Lemma shr_1_digits mrs :
  Zdigits2 (shr_m (shr_1 mrs)) = Z.max 0 (Zdigits2 (shr_m mrs) - 1).
Proof.
  destruct mrs as [[|[p|p|]|[p|p|]] r t];
    cbn [shr_1 shr_m Zdigits2 digits2_pos];
    lia.
Qed.

Lemma iter_shr_1_digits k mrs :
  Zdigits2 (shr_m (iter_pos shr_1 k mrs))
  = Z.max 0 (Zdigits2 (shr_m mrs) - Z.pos k).
Proof.
  revert mrs. induction k as [k IH|k IH|]; intros mrs; cbn [iter_pos].
  - rewrite !IH, shr_1_digits. lia.
  - rewrite !IH. lia.
  - apply shr_1_digits.
Qed.

Lemma Zdigits2_nonneg m : 0 ≤ Zdigits2 m.
Proof. destruct m; cbn; lia. Qed.

Lemma shr_fexp_digits m e l :
  Zdigits2 (shr_m (shr_fexp prec emax m e l).1) ≤ 53.
Proof.
  unfold shr_fexp, shr, fexp, emin, prec, emax.
  assert (shr_m (shr_record_of_loc m l) = m) as Hm by (by destruct l as [|[]]).
  pose proof (Zdigits2_nonneg m).
  destruct (Z.max (Zdigits2 m + e - 53) (3 - 1024 - 53) - e) as [|k|k] eqn:Hk;
    cbn [fst].
  - rewrite Hm. lia.
  - rewrite iter_shr_1_digits, Hm. lia.
  - rewrite Hm. lia.
Qed.

Lemma binary_round_aux_mantissa s mx ex lx s' m e :
  binary_round_aux prec emax s mx ex lx = S754_finite s' m e →
  Z.pos m < 2 ^ 53.
Proof.
  unfold binary_round_aux.
  destruct (shr_fexp prec emax mx ex lx) as [mrs' e'].
  pose proof (shr_fexp_digits
                (round_nearest_even (shr_m mrs') (loc_of_shr_record mrs'))
                e' loc_Exact) as Hd.
  destruct (shr_fexp prec emax _ e' loc_Exact) as [mrs'' e''].
  cbn [fst] in Hd. destruct (shr_m mrs'') as [|m'|m']; try discriminate.
  destruct (e'' <=? emax - prec); [|discriminate]. intros [= _ <- _].
  cbn [Zdigits2] in Hd. pose proof (digits2_pos_bounds m') as [_ Hb].
  eapply Z.lt_le_trans; [exact Hb|]. apply Z.pow_le_mono_r; lia.
Qed.

(** A product is rounded to the precision of the format. *)
Lemma mul_mantissa_fits x y : mantissa_fits (mul x y).
Proof.
  destruct (mul x y) as [| | |s m e] eqn:Hxy; try done.
  destruct x as [sx|sx| |sx mx ex], y as [sy|sy| |sy my ey];
    try discriminate.
  by eapply binary_round_aux_mantissa.
Qed.

Lemma valid_mantissa_fits x : valid x → mantissa_fits x.
Proof.
  destruct x as [| | |s m e]; try done.
  unfold valid, valid_binary, bounded, canonical_mantissa, fexp, emin,
    prec, emax, mantissa_fits.
  intros [Hc _]%andb_prop. apply Z.eqb_eq in Hc.
  pose proof (digits2_pos_bounds m) as [_ Hd].
  eapply Z.lt_le_trans; [exact Hd|].
  apply Z.pow_le_mono_r; lia.
Qed.

Lemma to_int_one : to_int one = 1.
Proof. reflexivity. Qed.

(** [math.Max] of a value that is not positive, and is not NaN, and 1. *)
Lemma Max_negative_one m e : Max (S754_finite true m e) one = one.
Proof. reflexivity. Qed.

Lemma Max_zero_one s : Max (S754_zero s) one = one.
Proof. by destruct s. Qed.

(** An integer at least 1, as [Floor] leaves it, wins against 1 or is 1. *)
Lemma to_int_Max_normal m e n :
  -52 ≤ e ≤ 0 → Z.pos m = n * 2 ^ (- e) → digits2_pos m = 53%positive →
  to_int (Max (S754_finite false m e) one) = n.
Proof.
  intros He Hm Hd.
  pose proof (digits2_pos_bounds m) as Hb. rewrite Hd in Hb.
  change (2 ^ (53 - 1)) with (2 ^ 52) in Hb.
  assert (0 < 2 ^ (- e)) as Hpow by (apply Z.pow_pos_nonneg; lia).
  assert (to_int (S754_finite false m e) = n) as Hx.
  { unfold to_int, cond_Zopp. destruct (decide (0 ≤ e)) as [H0|H0].
    - assert (e = 0) as -> by lia. change (2 ^ (- 0)) with 1 in Hm.
      rewrite (bool_decide_true (0 ≤ 0)) by done.
      change (2 ^ 0) with 1. rewrite bool_decide_true by lia. lia.
    - rewrite (bool_decide_false (0 ≤ e)) by done.
      rewrite Hm, Z.div_mul by lia.
      rewrite bool_decide_true; [done|]. nia. }
  unfold Max, gtb, SFltb, SFcompare, one.
  cbn [is_pos_inf is_nan is_zero orb andb].
  destruct (Z.compare_spec (-52) e) as [<-|Hlt|Hgt]; [|done|lia].
  assert (m = 2 ^ 52)%positive as ->; [|done].
  change (2 ^ (- -52)) with (2 ^ 52) in Hm.
  assert (n = 1) by nia. lia.
Qed.

(** What [GetExpectedNumWorkers] makes of the product: the larger of 1
    and the product rounded down, when that fits an [int]. *)
Lemma to_int_Max_Floor x z :
  mantissa_fits x → floorZ x = Some z → z < 2 ^ 63 →
  to_int (Max (Floor x) one) = Z.max 1 z.
Proof.
  intros Hv Hz Hr. destruct x as [s| | |s m e]; try discriminate.
  { injection Hz as <-. cbn [Floor]. by rewrite Max_zero_one. }
  cbn [mantissa_fits] in Hv. cbn [floorZ] in Hz. injection Hz as <-.
  unfold Floor. case_bool_decide as He.
  - assert (0 < 2 ^ e) by (apply Z.pow_pos_nonneg; lia).
    destruct s; cbn [cond_Zopp] in *.
    + rewrite Max_negative_one, to_int_one. nia.
    + unfold Max, gtb, SFltb, SFcompare, one.
      cbn [is_pos_inf is_nan is_zero orb andb].
      destruct (Z.compare_spec (-52) e); [lia| |lia].
      unfold to_int, cond_Zopp. rewrite (bool_decide_true (0 ≤ e)) by done.
      rewrite bool_decide_true by nia. nia.
  - assert (0 < 2 ^ (- e)) as Hpow by (apply Z.pow_pos_nonneg; lia).
    destruct s; cbn [cond_Zopp] in *.
    + change (- Z.pos m) with (Z.neg m) in *.
      assert (Z.neg m `div` 2 ^ (- e) < 0) as Hneg.
      { apply Z.div_lt_upper_bound; lia. }
      assert (- Z.pos m ≤ Z.neg m `div` 2 ^ (- e)) as Hlow.
      { apply Z.div_le_lower_bound; nia. }
      destruct (Z.neg m `div` 2 ^ (- e)) as [|q|q] eqn:Hq; try lia.
      cbn [binary_normalize].
      destruct (binary_round_small true q) as (m' & e' & -> & _); [lia|].
      rewrite Max_negative_one, to_int_one. lia.
    + assert (0 ≤ Z.pos m `div` 2 ^ (- e)) as Hpos
        by (apply Z.div_pos; lia).
      assert (Z.pos m `div` 2 ^ (- e) ≤ Z.pos m) as Hup.
      { apply Z.div_le_upper_bound; nia. }
      destruct (Z.pos m `div` 2 ^ (- e)) as [|q|q] eqn:Hq; try lia.
      * cbn [binary_normalize]. by rewrite Max_zero_one.
      * cbn [binary_normalize].
        destruct (binary_round_small false q)
          as (m' & e' & -> & He' & Hm' & Hd'); [lia|].
        rewrite (to_int_Max_normal m' e' (Z.pos q)) by done. lia.
Qed.
End Float64Facts.

Lemma gtb_zero_not_eqb x :
  Float64.gtb x Float64.zero = true → Float64.eqb x Float64.zero = false.
Proof. by destruct x as [[]|[]| |[]]. Qed.

(** Against C3 as stated: the conversion to [int] wraps around, and a
    constant of [2 ^ 63], with a zero coefficient, makes for a negative
    number of workers. *)
Lemma workers_wrap_around :
  let spec := mkParallelismSpec (2 ^ 63) Float64.zero in
  is_uint64 (Constant spec) ∧ Constant spec > 0
  ∧ Float64.eqb (Coefficient spec) Float64.zero = true
  ∧ GetExpectedNumWorkers (cluster_of 3) (Some spec) = Ok (- 2 ^ 63)
  ∧ GetExpectedNumWorkers (cluster_of 3) (Some spec) ≠ Ok (Constant spec).
Proof. cbv zeta. by vm_compute. Qed.

(** C3 (as amended): the number of workers is 1 for a nil spec and when
    constant and coefficient are both zero, and is the constant when the
    coefficient is zero and the constant is positive and below [2 ^ 63].
    With a zero constant and a positive coefficient the call fails with the
    cluster's error when the nodes cannot be listed or there are none;
    otherwise it returns the larger of 1 and the product of the coefficient
    and the number of nodes rounded down, the product being the one of
    [float64], when that product is finite and the result below [2 ^ 63].
    Every other combination is the invalid-spec error, both positive in
    particular. *)
Theorem GetExpectedNumWorkers_spec kubeClient :
  GetExpectedNumWorkers kubeClient None = Ok 1
  ∧ ∀ spec,
      let c := Constant spec in
      let k := Coefficient spec in
      let workers := GetExpectedNumWorkers kubeClient (Some spec) in
      (c = 0 → Float64.eqb k Float64.zero = true → workers = Ok 1)
      ∧ (0 < c < 2 ^ 63 → Float64.eqb k Float64.zero = true →
         workers = Ok c)
      ∧ (c = 0 → Float64.gtb k Float64.zero = true →
         (Nodes_List kubeClient = None ∨ Nodes_List kubeClient = Some [] →
          workers = Err ClusterUnavailable)
         ∧ (∀ Items z,
              Nodes_List kubeClient = Some Items → Items ≠ [] →
              let product :=
                Float64.mul k (Float64.of_int (Z.of_nat (length Items))) in
              Float64.floorZ product = Some z → z < 2 ^ 63 →
              workers = Ok (Z.max 1 z)))
      ∧ (¬ (c = 0 ∧ Float64.eqb k Float64.zero = true) →
         ¬ (c > 0 ∧ Float64.eqb k Float64.zero = true) →
         ¬ (c = 0 ∧ Float64.gtb k Float64.zero = true) →
         workers = Err InvalidParallelismSpec)
      ∧ (c > 0 → Float64.gtb k Float64.zero = true →
         workers = Err InvalidParallelismSpec).
Proof.
  split; [done|]. intros spec c k workers. subst workers.
  unfold GetExpectedNumWorkers. fold c k.
  split; [|split; [|split; [|split]]].
  - intros -> ->. by rewrite bool_decide_true.
  - intros Hc ->. rewrite bool_decide_false by lia.
    rewrite bool_decide_true by lia. cbn [andb].
    f_equal. unfold wrap64. rewrite Z.mod_small by lia. lia.
  - intros -> Hk. rewrite (gtb_zero_not_eqb _ Hk), Hk.
    rewrite bool_decide_true, bool_decide_false by done. cbn [andb].
    unfold getNumNodes. split.
    + by intros [-> | ->].
    + intros Items z -> Hne. cbv zeta. intros Hz Hr.
      rewrite bool_decide_false by by destruct Items.
      cbn [and_then]. f_equal.
      apply Float64Facts.to_int_Max_Floor; [|done|done].
      apply Float64Facts.mul_mantissa_fits.
  - intros H1 H2 H3.
    destruct (bool_decide (c = 0) && Float64.eqb k Float64.zero) eqn:E1.
    { apply andb_prop in E1 as [?%bool_decide_eq_true ?]. by destruct H1. }
    destruct (bool_decide (c > 0) && Float64.eqb k Float64.zero) eqn:E2.
    { apply andb_prop in E2 as [?%bool_decide_eq_true ?]. by destruct H2. }
    destruct (bool_decide (c = 0) && Float64.gtb k Float64.zero) eqn:E3.
    { apply andb_prop in E3 as [?%bool_decide_eq_true ?]. by destruct H3. }
    done.
  - intros Hc Hk. rewrite (gtb_zero_not_eqb _ Hk), Hk.
    rewrite bool_decide_false by lia. by destruct (bool_decide (c > 0)).
Qed.

(** The spec's own examples: half a worker per node makes 1 worker on 3
    nodes and 5 on 10; a constant of 5 makes 5 whatever the cluster. *)
Lemma GetExpectedNumWorkers_spec_witness :
  GetExpectedNumWorkers (cluster_of 3)
    (Some (mkParallelismSpec 0 one_half)) = Ok 1
  ∧ GetExpectedNumWorkers (cluster_of 10)
      (Some (mkParallelismSpec 0 one_half)) = Ok 5
  ∧ GetExpectedNumWorkers (mkClientset None)
      (Some (mkParallelismSpec 5 Float64.zero)) = Ok 5.
Proof.
  split; [|split].
  - destruct (GetExpectedNumWorkers_spec (cluster_of 3)) as [_ H].
    destruct (H (mkParallelismSpec 0 one_half)) as (_ & _ & H3 & _).
    destruct H3 as [_ H3]; [done|done|].
    apply (H3 (replicate 3 "node") 1); by vm_compute.
  - destruct (GetExpectedNumWorkers_spec (cluster_of 10)) as [_ H].
    destruct (H (mkParallelismSpec 0 one_half)) as (_ & _ & H3 & _).
    destruct H3 as [_ H3]; [done|done|].
    apply (H3 (replicate 10 "node") 5); by vm_compute.
  - destruct (GetExpectedNumWorkers_spec (mkClientset None)) as [_ H].
    destruct (H (mkParallelismSpec 5 Float64.zero)) as (_ & H2 & _).
    apply H2; by vm_compute.
Defined.

(** * Further properties *)

(** ** [UpdateJobState]: what a call leaves alone *)

(** X1: whatever a call returns, it leaves every pipeline record but the
    job's and every job record but the job's own as they were, neither adds
    nor removes a pipeline record, and changes nothing of the job's pipeline
    record but its counts and its last job state; of the job record at hand
    the id, the pipeline, the output commit and the restart count stay. *)
Theorem UpdateJobState_frame state reason stamp w :
  let w' := (UpdateJobState state reason stamp w).2 in
  (∀ name, name ≠ Job_Pipeline (jobPtr w) →
     pipelines (store w') !! name = pipelines (store w) !! name)
  ∧ (∀ id, id ≠ Job_ID (jobPtr w) →
       jobs (store w') !! id = jobs (store w) !! id)
  ∧ dom (pipelines (store w')) = dom (pipelines (store w))
  ∧ (∀ p', pipelines (store w') !! Job_Pipeline (jobPtr w) = Some p' →
       ∃ p, pipelines (store w) !! Job_Pipeline (jobPtr w) = Some p
            ∧ Pipeline_State p' = Pipeline_State p
            ∧ Pipeline_Reason p' = Pipeline_Reason p
            ∧ Pipeline_SpecCommit p' = Pipeline_SpecCommit p)
  ∧ Job_ID (jobPtr w') = Job_ID (jobPtr w)
  ∧ Job_Pipeline (jobPtr w') = Job_Pipeline (jobPtr w)
  ∧ Job_OutputCommit (jobPtr w') = Job_OutputCommit (jobPtr w)
  ∧ Job_Restart (jobPtr w') = Job_Restart (jobPtr w).
Proof.
  cbv zeta.
  assert (Hdom : ∀ p q (m : gmap string EtcdPipelineInfo) k,
            m !! k = Some p → dom (<[k := q]> m) = dom m).
  { intros p q m k Hk. apply dom_insert_lookup_L. by rewrite Hk. }
  destruct (UpdateJobState_cases state reason stamp w)
    as [Hf|Hf Hp|p Hf Hp Hs ->|p Hf Hp Hr|p Hf Hp Hr Hs]; cbn [snd].
  - repeat split; eauto 10.
  - repeat split; eauto 10.
  - cbn. unfold job_unstamped. repeat split.
    + intros name Hn. by rewrite lookup_insert_ne.
    + by eapply Hdom.
    + rewrite lookup_insert_eq. intros p' [= <-]. eauto 10.
    + by case_bool_decide.
    + by case_bool_decide.
    + by case_bool_decide.
    + by case_bool_decide.
  - cbn. repeat split.
    + intros name Hn. by rewrite lookup_insert_ne.
    + by eapply Hdom.
    + rewrite lookup_insert_eq. intros p' [= <-]. eauto 10.
  - cbn. unfold job_step. repeat split.
    + intros name Hn. by rewrite lookup_insert_ne.
    + intros id Hn. by rewrite lookup_insert_ne.
    + by eapply Hdom.
    + rewrite lookup_insert_eq. intros p' [= <-]. eauto 10.
    + by repeat case_bool_decide.
    + by repeat case_bool_decide.
    + by repeat case_bool_decide.
    + by repeat case_bool_decide.
Qed.

(** ** [UpdateJobState]: the failed state is final *)

Lemma run_calls_rejected calls w :
  Job_State (jobPtr w) = JobState_JOB_FAILURE →
  run_calls calls w =
  ((λ c, Err (IllegalTransition (Job_ID (jobPtr w)) (call_state c)))
     <$> calls, w).
Proof.
  intros Hf. induction calls as [|c calls IH]; [done|].
  cbn [run_calls]. rewrite UpdateJobState_guard by done. by rewrite IH.
Qed.

(** X2: once a transition of a job to [JOB_FAILURE] has committed, every
    later call on that job record, whatever its arguments and however many
    there are, is rejected with the illegal-transition error and changes
    neither the store nor the record. *)
Theorem UpdateJobState_FAILURE_is_final reason stamp w w' calls :
  UpdateJobState JobState_JOB_FAILURE reason stamp w = (Ok (), w') →
  Job_State (jobPtr w') = JobState_JOB_FAILURE
  ∧ run_calls calls w' =
    ((λ c, Err (IllegalTransition (Job_ID (jobPtr w)) (call_state c)))
       <$> calls, w').
Proof.
  intros H.
  assert (Job_State (jobPtr w') = JobState_JOB_FAILURE
          ∧ Job_ID (jobPtr w') = Job_ID (jobPtr w)) as [Hs Hid].
  { destruct (UpdateJobState_cases JobState_JOB_FAILURE reason stamp w);
      try discriminate.
    injection H as <-. cbn. unfold job_step. by repeat case_bool_decide. }
  split; [done|]. rewrite <- Hid. by apply run_calls_rejected.
Qed.

Lemma UpdateJobState_FAILURE_is_final_witness :
  let w := world_of busy_pipeline (job_in JobState_JOB_RUNNING None) in
  let w' := (UpdateJobState JobState_JOB_FAILURE "crashed" (Some t_late) w).2
  in
  run_calls [mkCall JobState_JOB_RUNNING "again" (Some t_late);
             mkCall JobState_JOB_SUCCESS "" None;
             mkCall JobState_JOB_KILLED "stop" (Some t_late)] w'
  = ([Err (IllegalTransition "job-1" JobState_JOB_RUNNING);
      Err (IllegalTransition "job-1" JobState_JOB_SUCCESS);
      Err (IllegalTransition "job-1" JobState_JOB_KILLED)], w').
Proof.
  cbv zeta.
  exact (proj2 (UpdateJobState_FAILURE_is_final "crashed" (Some t_late)
                  (world_of busy_pipeline (job_in JobState_JOB_RUNNING None))
                  _ _ eq_refl)).
Defined.

(** ** [UpdateJobState] and [FailPipeline] in either order *)

Lemma FailPipeline_found name why s p :
  pipelines s !! name = Some p →
  FailPipeline name why s =
  (Ok (),
   mkStore (<[name := set_Pipeline_Reason why
                        (set_Pipeline_State PipelineState_PIPELINE_FAILURE p)]>
              (pipelines s))
           (jobs s)).
Proof.
  intros Hp. unfold FailPipeline, NewSTM, bind, drop_error, pipelines_Get,
    pipelines_Put, ret. by rewrite Hp.
Qed.

(** X3: a transition that commits and the failing of a pipeline that exists
    do not get in each other's way: made in either order, both succeed and
    leave the same store and the same job record, also when the pipeline
    failed is the job's own. *)
Theorem FailPipeline_UpdateJobState_commute name why state reason stamp w w1 :
  is_Some (pipelines (store w) !! name) →
  UpdateJobState state reason stamp w = (Ok (), w1) →
  (on_store (FailPipeline name why) ;; UpdateJobState state reason stamp) w
  = (UpdateJobState state reason stamp ;; on_store (FailPipeline name why)) w
  ∧ ((UpdateJobState state reason stamp ;; on_store (FailPipeline name why))
       w).1 = Ok ().
Proof.
  intros [q Hq] H.
  destruct (UpdateJobState_cases state reason stamp w)
    as [| | | |p Hf Hp Hr Hs]; try discriminate.
  injection H as <-.
  set (failed r := set_Pipeline_Reason why
                     (set_Pipeline_State PipelineState_PIPELINE_FAILURE r)).
  set (P := Job_Pipeline (jobPtr w)) in *.
  (* the transition first *)
  assert (Hsecond :
    (UpdateJobState state reason stamp ;; on_store (FailPipeline name why)) w
    = (Ok (),
       mkWorld
         (mkStore
            (<[name := failed (if decide (name = P)
                               then pipeline_step p (Job_State (jobPtr w))
                                                  state
                               else q)]>
               (<[P := pipeline_step p (Job_State (jobPtr w)) state]>
                  (pipelines (store w))))
            (jobs (store (job_written w p state reason stamp))))
         (jobPtr (job_written w p state reason stamp)))).
  { unfold bind at 1. rewrite (UpdateJobState_done _ _ _ _ p) by done.
    unfold on_store.
    erewrite FailPipeline_found; [reflexivity|].
    cbn. fold P. rewrite lookup_insert.
    destruct (decide (P = name)) as [<-|Hne].
    - by rewrite decide_True.
    - by rewrite decide_False. }
  rewrite Hsecond. split; [|done].
  (* the pipeline first *)
  unfold bind at 1, on_store. rewrite (FailPipeline_found _ _ _ q) by done.
  destruct (decide (name = P)) as [->|Hne].
  - assert (q = p) as -> by congruence.
    rewrite (UpdateJobState_done _ _ _ _ (failed p));
      [|done|cbn; by rewrite lookup_insert_eq|done|done].
    unfold job_written, pipeline_written. cbn. fold P.
    by rewrite !insert_insert_eq.
  - rewrite (UpdateJobState_done _ _ _ _ p);
      [|done|cbn; fold P; by rewrite lookup_insert_ne|done|done].
    unfold job_written, pipeline_written. cbn. fold P.
    by rewrite (insert_insert_ne _ name P).
Qed.

Lemma FailPipeline_UpdateJobState_commute_witness :
  let w := world_of busy_pipeline (job_in JobState_JOB_STARTING None) in
  (on_store (FailPipeline "edges" "out of memory") ;;
   UpdateJobState JobState_JOB_RUNNING "" (Some t_late)) w
  = (UpdateJobState JobState_JOB_RUNNING "" (Some t_late) ;;
     on_store (FailPipeline "edges" "out of memory")) w.
Proof.
  cbv zeta.
  exact (proj1 (FailPipeline_UpdateJobState_commute "edges" "out of memory"
                  JobState_JOB_RUNNING "" (Some t_late)
                  (world_of busy_pipeline (job_in JobState_JOB_STARTING None))
                  _ (mk_is_Some _ _ eq_refl) eq_refl)).
Defined.

(** ** [UpdateJobState]: the counts and the job records they count *)

Section CountingJobs.
Context (P : string * EtcdJobInfo → Prop) `{!∀ x, Decision (P x)}.

Lemma size_filter_insert_fresh (m : gmap string EtcdJobInfo) k y :
  m !! k = None →
  size (filter P (<[k := y]> m))
  = (size (filter P m) + (if decide (P (k, y)) then 1 else 0))%nat.
Proof.
  intros Hk. rewrite map_filter_insert. case_decide.
  - rewrite map_size_insert_None; [lia|].
    apply map_lookup_filter_None. by left.
  - rewrite delete_id by done. lia.
Qed.

Lemma size_filter_insert_stored (m : gmap string EtcdJobInfo) k x y :
  m !! k = Some x →
  (size (filter P (<[k := y]> m)) + (if decide (P (k, x)) then 1 else 0)
   = size (filter P m) + (if decide (P (k, y)) then 1 else 0))%nat.
Proof.
  intros Hk. rewrite <- (insert_delete_eq m k y).
  rewrite <- (insert_delete_id m k x) at 2 by done.
  rewrite !size_filter_insert_fresh by apply lookup_delete_eq. lia.
Qed.

Lemma size_filter_stored_pos (m : gmap string EtcdJobInfo) k x :
  m !! k = Some x → P (k, x) → (1 ≤ size (filter P m))%nat.
Proof.
  intros Hk HP.
  assert (filter P m !! k = Some x) as Hf by by apply map_lookup_filter_Some.
  destruct (size (filter P m)) eqn:Hsz; [|lia].
  apply map_size_empty_inv in Hsz. rewrite Hsz in Hf. done.
Qed.
End CountingJobs.

Lemma jobs_in_bound s pipeline state :
  (jobs_in s pipeline state ≤ size (jobs s))%nat.
Proof. unfold jobs_in. apply map_size_filter. Qed.

Lemma job_step_keeps j state reason stamp :
  Job_ID (job_step j state reason stamp) = Job_ID j
  ∧ Job_Pipeline (job_step j state reason stamp) = Job_Pipeline j
  ∧ Job_State (job_step j state reason stamp) = state.
Proof. unfold job_step. by repeat case_bool_decide. Qed.

(** The numbers of job records once the job at hand, stored under its id,
    is written back in its new state. *)
Lemma jobs_in_job_written w p state reason stamp name st :
  jobs (store w) !! Job_ID (jobPtr w) = Some (jobPtr w) →
  (jobs_in (store (job_written w p state reason stamp)) name st
   + (if decide (Job_Pipeline (jobPtr w) = name
                 ∧ Job_State (jobPtr w) = st) then 1 else 0)
   = jobs_in (store w) name st
     + (if decide (Job_Pipeline (jobPtr w) = name ∧ state = st)
        then 1 else 0))%nat.
Proof.
  intros Hj. unfold jobs_in, job_written. cbn [store jobs].
  pose proof (size_filter_insert_stored
                (λ kv : string * EtcdJobInfo,
                   Job_Pipeline kv.2 = name ∧ Job_State kv.2 = st)
                _ _ _ (job_step (jobPtr w) state reason stamp) Hj) as H.
  cbn [snd] in H.
  destruct (job_step_keeps (jobPtr w) state reason stamp) as (_ & Hp & Hs).
  repeat case_decide; rewrite ?Hp, ?Hs in *; try lia; tauto.
Qed.

(** The same when the job at hand is not in the store yet. *)
Lemma jobs_in_job_admitted w p state reason stamp name st :
  jobs (store w) !! Job_ID (jobPtr w) = None →
  jobs_in (store (job_written w p state reason stamp)) name st
  = (jobs_in (store w) name st
     + (if decide (Job_Pipeline (jobPtr w) = name ∧ state = st)
        then 1 else 0))%nat.
Proof.
  intros Hj. unfold jobs_in, job_written. cbn [store jobs].
  pose proof (size_filter_insert_fresh
                (λ kv : string * EtcdJobInfo,
                   Job_Pipeline kv.2 = name ∧ Job_State kv.2 = st)
                _ _ (job_step (jobPtr w) state reason stamp) Hj) as H.
  cbn [snd] in H.
  destruct (job_step_keeps (jobPtr w) state reason stamp) as (_ & Hp & Hs).
  repeat case_decide; rewrite ?Hp, ?Hs in *; try lia; tauto.
Qed.

Lemma counts_accurate_range s name p state :
  counts_accurate s → pipelines s !! name = Some p →
  Z.of_nat (size (jobs s)) < 2 ^ 31 - 1 →
  0 ≤ map_read (Pipeline_JobCounts p) state < 2 ^ 31 - 1.
Proof.
  intros Hacc Hp Hsize. rewrite (Hacc name p state Hp).
  pose proof (jobs_in_bound s name state). lia.
Qed.

(** X4: a committed transition of a job record that is in the store, under
    its id and as the caller holds it, keeps the counts accurate: if before
    the call every pipeline record counts, state by state, the job records
    of its pipeline, it does so after the call, as long as there are fewer
    job records than the largest [int32].  The record the caller holds is
    again the one in the store. *)
Theorem UpdateJobState_keeps_counts_accurate state reason stamp w w' :
  counts_accurate (store w) →
  jobs (store w) !! Job_ID (jobPtr w) = Some (jobPtr w) →
  Z.of_nat (size (jobs (store w))) < 2 ^ 31 - 1 →
  UpdateJobState state reason stamp w = (Ok (), w') →
  counts_accurate (store w')
  ∧ jobs (store w') !! Job_ID (jobPtr w') = Some (jobPtr w').
Proof.
  intros Hacc Hj Hsize H.
  destruct (UpdateJobState_cases state reason stamp w)
    as [| | | |p Hf Hp Hr Hs]; try discriminate.
  injection H as <-.
  destruct (job_step_keeps (jobPtr w) state reason stamp) as (Hid & _ & _).
  split.
  2: { cbn [job_written jobPtr store jobs]. rewrite Hid.
       apply lookup_insert_eq. }
  intros name p' st Hp'.
  pose proof (jobs_in_job_written w p state reason stamp name st Hj) as Hn.
  cbn [job_written pipeline_written store pipelines] in Hp'.
  destruct (decide (Job_Pipeline (jobPtr w) = name)) as [Hname|Hname].
  - rewrite Hname, lookup_insert_eq in Hp'. injection Hp' as <-.
    subst name.
    change (Pipeline_JobCounts (pipeline_step p (Job_State (jobPtr w)) state))
      with (Some (counts_step (Pipeline_JobCounts p)
                    (Job_State (jobPtr w)) state)).
    pose proof (counts_accurate_range _ _ _ (Job_State (jobPtr w))
                  Hacc Hp Hsize) as Hold.
    pose proof (counts_accurate_range _ _ _ state Hacc Hp Hsize) as Hnew.
    rewrite counts_step_read by (unfold is_int32; lia).
    assert (1 ≤ jobs_in (store w) (Job_Pipeline (jobPtr w))
                  (Job_State (jobPtr w)))%nat as Hone.
    { unfold jobs_in. by eapply size_filter_stored_pos. }
    pose proof (Hacc _ _ (Job_State (jobPtr w)) Hp) as Eold.
    pose proof (Hacc _ _ state Hp) as Enew.
    pose proof (Hacc _ _ st Hp) as Est.
    repeat case_decide; subst; try lia; try tauto.
  - rewrite lookup_insert_ne in Hp' by done. rewrite (Hacc _ _ _ Hp').
    repeat case_decide; try lia; try tauto.
Qed.

Lemma tidy_world_accurate : counts_accurate (store tidy_world).
Proof.
  intros name p st Hp. unfold jobs_in, tidy_world, world_of in *.
  cbn [store pipelines jobs] in *.
  apply lookup_singleton_Some in Hp as [<- <-].
  rewrite map_filter_singleton. cbn [snd].
  unfold map_read.
  cbn [Pipeline_JobCounts set_JobCounts mbind option_bind].
  rewrite lookup_singleton.
  repeat case_decide; try done.
  - exfalso. tauto.
  - exfalso. tauto.
Qed.

Lemma UpdateJobState_keeps_counts_accurate_witness :
  counts_accurate
    (store (UpdateJobState JobState_JOB_RUNNING "" (Some t_late)
              tidy_world).2).
Proof.
  refine (proj1 (UpdateJobState_keeps_counts_accurate JobState_JOB_RUNNING ""
                   (Some t_late) tidy_world _ _ eq_refl _ eq_refl)).
  - exact tidy_world_accurate.
  - by vm_compute.
Defined.

(** X5: the first transition of a job record that is not in the store yet,
    the one that files it.  With the counts accurate before the call and
    fewer job records than the largest [int32], the counts are accurate
    after a committed call exactly when the pipeline counted no job in the
    state the new record comes in: the count of that state is taken down
    whenever it is not zero, although the new job was never counted in
    it. *)
Theorem UpdateJobState_admission_accurate_iff state reason stamp w w' p :
  counts_accurate (store w) →
  jobs (store w) !! Job_ID (jobPtr w) = None →
  Z.of_nat (size (jobs (store w))) < 2 ^ 31 - 1 →
  pipelines (store w) !! Job_Pipeline (jobPtr w) = Some p →
  UpdateJobState state reason stamp w = (Ok (), w') →
  counts_accurate (store w')
  ↔ map_read (Pipeline_JobCounts p) (Job_State (jobPtr w)) = 0.
Proof.
  intros Hacc Hj Hsize Hp0 H.
  destruct (UpdateJobState_cases state reason stamp w)
    as [| | | |p1 Hf Hp Hr Hs]; try discriminate.
  injection H as <-.
  assert (p1 = p) as -> by congruence. clear Hp0.
  pose proof (counts_accurate_range _ _ _ (Job_State (jobPtr w))
                Hacc Hp Hsize) as Hold.
  pose proof (counts_accurate_range _ _ _ state Hacc Hp Hsize) as Hnew.
  pose proof (Hacc _ _ (Job_State (jobPtr w)) Hp) as Eold.
  pose proof (Hacc _ _ state Hp) as Enew.
  split.
  - intros Hacc'.
    specialize (Hacc' (Job_Pipeline (jobPtr w))
                  (pipeline_step p (Job_State (jobPtr w)) state)
                  (Job_State (jobPtr w))).
    rewrite (jobs_in_job_admitted w p state reason stamp) in Hacc' by done.
    cbn [job_written pipeline_written store pipelines] in Hacc'.
    rewrite lookup_insert_eq in Hacc'. specialize (Hacc' eq_refl).
    change (Pipeline_JobCounts (pipeline_step p (Job_State (jobPtr w)) state))
      with (Some (counts_step (Pipeline_JobCounts p)
                    (Job_State (jobPtr w)) state)) in Hacc'.
    rewrite counts_step_read in Hacc' by (unfold is_int32; lia).
    repeat case_decide; subst; try lia; try tauto.
  - intros Hzero name p' st Hp'.
    rewrite (jobs_in_job_admitted w p state reason stamp) by done.
    cbn [job_written pipeline_written store pipelines] in Hp'.
    destruct (decide (Job_Pipeline (jobPtr w) = name)) as [Hname|Hname].
    + rewrite Hname, lookup_insert_eq in Hp'. injection Hp' as <-.
      subst name.
      change (Pipeline_JobCounts
                (pipeline_step p (Job_State (jobPtr w)) state))
        with (Some (counts_step (Pipeline_JobCounts p)
                      (Job_State (jobPtr w)) state)).
      rewrite counts_step_read by (unfold is_int32; lia).
      pose proof (Hacc _ _ st Hp) as Est.
      repeat case_decide; subst; try lia; try tauto.
    + rewrite lookup_insert_ne in Hp' by done. rewrite (Hacc _ _ _ Hp').
      repeat case_decide; try lia; try tauto.
Qed.

(** With [job-1] counted as starting, filing [job-2] leaves one job counted
    as starting where there are two. *)
Lemma UpdateJobState_admission_accurate_iff_witness :
  ¬ counts_accurate
      (store (UpdateJobState JobState_JOB_STARTING "" (Some t_late)
                crowded_world).2).
Proof.
  intros Hacc'.
  pose proof (proj1 (UpdateJobState_admission_accurate_iff
                       JobState_JOB_STARTING "" (Some t_late) crowded_world _
                       (set_JobCounts (Some {[JobState_JOB_STARTING := 1]})
                          fresh_pipeline)
                       tidy_world_accurate eq_refl ltac:(by vm_compute)
                       eq_refl eq_refl) Hacc') as Hzero.
  by vm_compute in Hzero.
Defined.

(** ** [FailPipeline] and the counts *)

(** X6: failing a pipeline keeps the counts accurate, whether the pipeline
    is found or not: neither the counts nor the job records are touched. *)
Theorem FailPipeline_keeps_counts_accurate name why s :
  counts_accurate s → counts_accurate (FailPipeline name why s).2.
Proof.
  intros Hacc. destruct (pipelines s !! name) as [p|] eqn:Hp.
  - rewrite (FailPipeline_found _ _ _ p) by done. cbn [snd].
    intros n q st Hq. cbn [pipelines] in Hq. unfold jobs_in. cbn [jobs].
    destruct (decide (name = n)) as [->|Hne].
    + rewrite lookup_insert_eq in Hq. injection Hq as <-.
      exact (Hacc n p st Hp).
    + rewrite lookup_insert_ne in Hq by done. exact (Hacc n q st Hq).
  - unfold FailPipeline, NewSTM, bind, pipelines_Get. by rewrite Hp.
Qed.

Lemma FailPipeline_keeps_counts_accurate_witness :
  counts_accurate (FailPipeline "edges" "out of memory" (store tidy_world)).2.
Proof.
  exact (FailPipeline_keeps_counts_accurate "edges" "out of memory"
           (store tidy_world) tidy_world_accurate).
Defined.

(** ** [GetExpectedNumHashtrees] *)

(** X7: for a constant in the range of [uint64] the call never fails and
    never returns 0: the branch that makes the error is not reached.  The
    number returned is the larger of 1 and the constant when the constant is
    below [2 ^ 63]; from there on the conversion to [int64] wraps around and
    the number is negative. *)
Theorem GetExpectedNumHashtrees_never_fails spec :
  is_uint64 (Hashtree_Constant spec) →
  ∃ n, GetExpectedNumHashtrees (Some spec) = (n, None)
       ∧ n ≠ 0
       ∧ (Hashtree_Constant spec < 2 ^ 63 →
          n = Z.max 1 (Hashtree_Constant spec))
       ∧ (2 ^ 63 ≤ Hashtree_Constant spec →
          n = Hashtree_Constant spec - 2 ^ 64 ∧ n < 0).
Proof.
  unfold is_uint64, GetExpectedNumHashtrees. intros Hc.
  case_bool_decide as H0.
  - exists 1. repeat split; lia.
  - rewrite bool_decide_true by lia. eexists. split; [done|].
    unfold wrap64.
    destruct (decide (Hashtree_Constant spec < 2 ^ 63)) as [Hlt|Hge].
    + rewrite Z.mod_small by lia. repeat split; lia.
    + replace (Hashtree_Constant spec + 2 ^ 63)
        with (Hashtree_Constant spec - 2 ^ 63 + 1 * 2 ^ 64) by lia.
      rewrite Z.mod_add, Z.mod_small by lia. repeat split; lia.
Qed.

Lemma GetExpectedNumHashtrees_never_fails_witness :
  GetExpectedNumHashtrees (Some (mkHashtreeSpec 8)) = (8, None)
  ∧ GetExpectedNumHashtrees (Some (mkHashtreeSpec (2 ^ 63)))
    = (- 2 ^ 63, None).
Proof.
  split.
  - destruct (GetExpectedNumHashtrees_never_fails (mkHashtreeSpec 8))
      as (n & -> & _ & Hn & _); [by vm_compute|].
    by rewrite Hn.
  - destruct (GetExpectedNumHashtrees_never_fails (mkHashtreeSpec (2 ^ 63)))
      as (n & -> & _ & _ & Hn); [by vm_compute|].
    by destruct Hn as [-> _].
Defined.

(** ** [GetExpectedNumWorkers]: never no worker *)

Lemma to_int_Max_Floor_nonzero x :
  Float64.mantissa_fits x →
  Float64.to_int (Float64.Max (Float64.Floor x) Float64.one) ≠ 0.
Proof.
  intros Hx. destruct x as [s|s| |s m e].
  { cbn [Float64.Floor]. by rewrite Float64Facts.Max_zero_one. }
  { by destruct s; vm_compute. }
  { by vm_compute. }
  cbn [Float64.mantissa_fits] in Hx.
  destruct (Float64.floorZ (SpecFloat.S754_finite s m e)) as [z|] eqn:Hz;
    [|done].
  destruct (decide (z < 2 ^ 63)) as [Hlt|Hge].
  { rewrite (Float64Facts.to_int_Max_Floor _ z) by done. lia. }
  cbn [Float64.floorZ] in Hz. injection Hz as <-.
  unfold Float64.Floor.
  destruct (decide (0 ≤ e)) as [He|He].
  - rewrite bool_decide_true in * by done.
    assert (0 < 2 ^ e) by (apply Z.pow_pos_nonneg; lia).
    destruct s; cbn [SpecFloat.cond_Zopp] in *; [nia|].
    unfold Float64.Max, Float64.gtb, SpecFloat.SFltb, SpecFloat.SFcompare,
      Float64.one.
    cbn [Float64.is_pos_inf Float64.is_nan Float64.is_zero orb andb].
    destruct (Z.compare_spec (-52) e); [lia| |lia].
    unfold Float64.to_int, SpecFloat.cond_Zopp.
    rewrite (bool_decide_true (0 ≤ e)) by done.
    rewrite bool_decide_false by lia. lia.
  - rewrite bool_decide_false in Hge by done.
    assert (0 < 2 ^ (- e)) by (apply Z.pow_pos_nonneg; lia).
    exfalso. apply Hge.
    destruct s; cbn [SpecFloat.cond_Zopp].
    + assert ((- Z.pos m) `div` 2 ^ (- e) < 0); [|lia].
      apply Z.div_lt_upper_bound; lia.
    + assert (Z.pos m `div` 2 ^ (- e) ≤ Z.pos m); [|lia].
      apply Z.div_le_upper_bound; nia.
Qed.

(** X8: the number of workers is never 0.  Whatever the cluster and
    whatever the coefficient, a call on a spec whose constant is in the
    range of [uint64] fails or returns a number other than 0: the constant
    converted to [int] is never 0, and the product with the number of nodes
    is raised to 1 before it is converted. *)
Theorem GetExpectedNumWorkers_never_zero kubeClient spec :
  (∀ s, spec = Some s → is_uint64 (Constant s)) →
  GetExpectedNumWorkers kubeClient spec ≠ Ok 0.
Proof.
  intros Hc. destruct spec as [spec|]; [|done].
  specialize (Hc spec eq_refl). unfold is_uint64 in Hc.
  unfold GetExpectedNumWorkers.
  destruct (bool_decide (Constant spec = 0)
            && Float64.eqb (Coefficient spec) Float64.zero); [done|].
  destruct (bool_decide (Constant spec > 0)
            && Float64.eqb (Coefficient spec) Float64.zero) eqn:E2.
  { apply andb_prop in E2 as [Hpos%bool_decide_eq_true _].
    intros [= Hw]. unfold wrap64 in Hw.
    destruct (decide (Constant spec < 2 ^ 63)).
    - rewrite Z.mod_small in Hw by lia. lia.
    - replace (Constant spec + 2 ^ 63)
        with (Constant spec - 2 ^ 63 + 1 * 2 ^ 64) in Hw by lia.
      rewrite Z.mod_add, Z.mod_small in Hw by lia. lia. }
  destruct (bool_decide (Constant spec = 0)
            && Float64.gtb (Coefficient spec) Float64.zero); [|done].
  destruct (getNumNodes kubeClient) as [numNodes| |]; [|done|done].
  cbn [and_then]. intros [= Hw]. revert Hw.
  apply to_int_Max_Floor_nonzero, Float64Facts.mul_mantissa_fits.
Qed.

Lemma GetExpectedNumWorkers_never_zero_witness :
  GetExpectedNumWorkers (cluster_of 3) (Some (mkParallelismSpec 0 one_half))
  ≠ Ok 0.
Proof.
  apply GetExpectedNumWorkers_never_zero.
  intros s [= <-]. by vm_compute.
Defined.

(** ** Resource lists: the names used and the floor under the memory *)

Section ResourceListNames.
Context {Quantity float32 : Type}.
Context (ParseQuantity : string → Quantity * bool).
Context (Cmp : Quantity → Quantity → Z).
Context (Sprintf_f : float32 → string) (Sprintf_d : Z → string).

Abbreviation resourceList :=
  (getResourceListFromSpec Quantity ParseQuantity Cmp float32
     Sprintf_f Sprintf_d).

(** X9: the list has entries under no other names than [cpu], [memory],
    the type of the GPU when the spec has one, and [ephemeral-storage],
    the last only when the disk field of the spec is not empty. *)
Theorem resourceList_names resources cacheSize result k :
  resourceList (Some resources) cacheSize = Ok result →
  is_Some (result !! k) →
  k = ResourceCPU ∨ k = ResourceMemory
  ∨ (k = ResourceEphemeralStorage ∧ Disk resources ≠ "")
  ∨ (∃ gpu, Gpu resources = Some gpu ∧ k = Gpu_Type gpu).
Proof.
  unfold getResourceListFromSpec. intros [= <-] [q Hq].
  destruct (decide (k = ResourceCPU)) as [|Hcpu]; [by left|].
  destruct (decide (k = ResourceMemory)) as [|Hmem]; [by right; left|].
  right. right.
  destruct (Gpu resources) as [gpu|] eqn:Hgpu.
  - destruct (decide (k = Gpu_Type gpu)) as [->|Hg]; [right; by eauto|].
    left. rewrite lookup_store_parsed, decide_False in Hq by done.
    destruct (ParseQuantity cacheSize).2; repeat case_bool_decide;
      rewrite ?lookup_insert_ne in Hq by done;
      rewrite !lookup_store_parsed in Hq;
      repeat case_decide; subst; try done;
      by rewrite ?lookup_empty in Hq.
  - left.
    destruct (ParseQuantity cacheSize).2; repeat case_bool_decide;
      rewrite ?lookup_insert_ne in Hq by done;
      rewrite !lookup_store_parsed in Hq;
      repeat case_decide; subst; try done;
      by rewrite ?lookup_empty in Hq.
Qed.

(** X10: the memory entry covers the cache.  When the cache size parses, to
    a quantity that does not exceed itself, and the GPU type is not the
    name [memory], the cache size exceeds no memory entry the list has.  *)
Theorem resourceList_memory_covers_cache resources cacheSize result q :
  (∀ gpu, Gpu resources = Some gpu → Gpu_Type gpu ≠ ResourceMemory) →
  (ParseQuantity cacheSize).2 = false →
  Cmp (ParseQuantity cacheSize).1 (ParseQuantity cacheSize).1 ≤ 0 →
  resourceList (Some resources) cacheSize = Ok result →
  result !! ResourceMemory = Some q →
  Cmp (ParseQuantity cacheSize).1 q ≤ 0.
Proof.
  intros Hg Hparsed Hrefl H.
  rewrite (resourceList_memory ParseQuantity Cmp Sprintf_f Sprintf_d
             resources cacheSize result Hg H).
  case_decide as Hc.
  - by intros [= <-].
  - destruct (ParseQuantity (Memory resources)).2 eqn:Hm; [done|].
    intros [= <-].
    destruct (decide (Cmp (ParseQuantity cacheSize).1
                          (ParseQuantity (Memory resources)).1 ≤ 0));
      [done|].
    destruct Hc. split; [done|lia].
Qed.
End ResourceListNames.

Lemma resourceList_names_witness :
  ∃ result,
    micro_resourceList
      (Some (mkResourceSpec (whole_cores 1) "1G"
               (Some (mkGPUSpec "nvidia.com/gpu" 1)) ""))
      "2G" = Ok result
    ∧ result !! ResourceEphemeralStorage = None.
Proof.
  destruct (resourceList_returns micro_ParseQuantity micro_Cmp
              cores_Sprintf_f pretty
              (mkResourceSpec (whole_cores 1) "1G"
                 (Some (mkGPUSpec "nvidia.com/gpu" 1)) "")
              "2G") as [result Hr].
  exists result. split; [exact Hr|].
  destruct (result !! ResourceEphemeralStorage) as [q|] eqn:Hq; [|done].
  destruct (resourceList_names micro_ParseQuantity micro_Cmp
              cores_Sprintf_f pretty
              (mkResourceSpec (whole_cores 1) "1G"
                 (Some (mkGPUSpec "nvidia.com/gpu" 1)) "")
              "2G" result ResourceEphemeralStorage Hr
              (mk_is_Some _ _ Hq))
    as [?|[?|[[_ ?]|(gpu & [= <-] & ?)]]]; done.
Defined.

(** With [1G] of memory and a cache of [512M] the memory entry is at least
    the cache. *)
Lemma resourceList_memory_covers_cache_witness :
  ∃ result q,
    micro_resourceList
      (Some (mkResourceSpec (whole_cores 1) "1G"
               (Some (mkGPUSpec "nvidia.com/gpu" 1)) ""))
      "512M" = Ok result
    ∧ result !! ResourceMemory = Some q ∧ 512 * 10 ^ 12 ≤ q.
Proof.
  eexists _, (10 ^ 15). split; [reflexivity|].
  split; [by vm_compute|].
  pose proof (resourceList_memory_covers_cache micro_ParseQuantity
                micro_Cmp cores_Sprintf_f pretty
                (mkResourceSpec (whole_cores 1) "1G"
                   (Some (mkGPUSpec "nvidia.com/gpu" 1)) "")
                "512M" _ (10 ^ 15)
                ltac:(by intros gpu [= <-]) eq_refl ltac:(by vm_compute)
                eq_refl ltac:(by vm_compute)) as H.
  change (micro_ParseQuantity "512M").1 with (512 * 10 ^ 12) in H.
  unfold micro_Cmp in H.
  destruct (Z.compare_spec (512 * 10 ^ 12) (10 ^ 15)); [lia|lia|done].
Defined.

(** ** [JobInput]: what a second resolution and a foreign provenance do *)

Section JobInputFurther.
Context (key : string → string → string).

Lemma pinned_pinned Provenance repo branch unresolved :
  pinned key Provenance repo branch
    (pinned key Provenance repo branch unresolved)
  = pinned key Provenance repo branch unresolved.
Proof. unfold pinned. by destruct (provenance_commit _ _ _ _). Qed.

Lemma pinned_foreign Provenance repo branch unresolved :
  (∀ prov, prov ∈ Provenance → key_of key prov ≠ key repo branch) →
  pinned key Provenance repo branch unresolved = unresolved.
Proof.
  intros H. unfold pinned.
  by rewrite (proj2 (provenance_commit_None key _ _ _) H).
Qed.

(** X11: resolving a resolved tree against the same provenance changes
    nothing. *)
Theorem JobInput_idempotent pipelineInput Provenance :
  JobInput key (JobInput key pipelineInput Provenance) Provenance
  = JobInput key pipelineInput Provenance.
Proof.
  unfold JobInput. cbv zeta.
  induction pipelineInput as [pfs cross union cron git IHc IHu]
    using Input_ind.
  cbn [VisitInput]. rewrite fill_commits_resolved.
  cbn [VisitInput]. rewrite fill_commits_resolved. f_equal.
  - destruct pfs as [[]|]; [|done]. cbn. unfold set_Pfs_Commit. cbn.
    by rewrite pinned_pinned.
  - induction IHc as [|i l Hi _ IH]; [done|]. cbn. by rewrite Hi, IH.
  - induction IHu as [|i l Hi _ IH]; [done|]. cbn. by rewrite Hi, IH.
  - destruct cron as [[]|]; [|done]. cbn. unfold set_Cron_Commit. cbn.
    by rewrite pinned_pinned.
  - destruct git as [[]|]; [|done]. cbn. unfold set_Git_Commit. cbn.
    by rewrite pinned_pinned.
Qed.

(** X12: a provenance none of whose entries is filed under the key of a
    leaf of the tree leaves the tree as it is; the empty provenance does so
    for every tree. *)
Theorem JobInput_foreign_provenance pipelineInput Provenance :
  (∀ prov, prov ∈ Provenance →
           key_of key prov ∉ input_keys key pipelineInput) →
  JobInput key pipelineInput Provenance = pipelineInput.
Proof.
  unfold JobInput. cbv zeta.
  induction pipelineInput as [pfs cross union cron git IHc IHu]
    using Input_ind.
  intros Hkeys. cbn [VisitInput]. rewrite fill_commits_resolved.
  cbn [input_keys] in Hkeys.
  assert (∀ l : list Input,
            Forall (λ i, (∀ prov, prov ∈ Provenance →
                            key_of key prov ∉ input_keys key i) →
                         VisitInput
                           (fill_commits key (index_provenance key Provenance))
                           i = i) l →
            (∀ prov, prov ∈ Provenance →
               key_of key prov ∉ concat (map (input_keys key) l)) →
            map (VisitInput
                   (fill_commits key (index_provenance key Provenance))) l
            = l) as Hlist.
  { intros l Hl. induction Hl as [|i l Hi _ IH]; [done|].
    intros Hk. cbn. rewrite Hi, IH; [done| |].
    - intros prov Hin Hel. apply (Hk prov Hin). cbn.
      apply elem_of_app. by right.
    - intros prov Hin Hel. apply (Hk prov Hin). cbn.
      apply elem_of_app. by left. }
  f_equal.
  - destruct pfs as [[]|]; [|done]. cbn. unfold set_Pfs_Commit. cbn.
    rewrite pinned_foreign; [done|].
    intros prov Hin Hk. apply (Hkeys prov Hin). rewrite Hk.
    cbn. by left.
  - apply Hlist; [done|]. intros prov Hin Hel. apply (Hkeys prov Hin).
    rewrite !elem_of_app. by do 3 right; left.
  - apply Hlist; [done|]. intros prov Hin Hel. apply (Hkeys prov Hin).
    rewrite !elem_of_app. by do 4 right.
  - destruct cron as [[]|]; [|done]. cbn. unfold set_Cron_Commit. cbn.
    rewrite pinned_foreign; [done|].
    intros prov Hin Hk. apply (Hkeys prov Hin). rewrite Hk.
    rewrite !elem_of_app. right; left. cbn. by left.
  - destruct git as [[]|]; [|done]. cbn. unfold set_Git_Commit. cbn.
    rewrite pinned_foreign; [done|].
    intros prov Hin Hk. apply (Hkeys prov Hin). rewrite Hk.
    rewrite !elem_of_app. do 2 right; left. cbn. by left.
Qed.

(** X13: resolution writes commit fields and nothing else: with the commit
    fields blanked, the tree returned is the tree given.  The shape of the
    tree, the leaves a node has and what identifies a leaf are as in the
    input of the pipeline. *)
Theorem JobInput_writes_commits_only pipelineInput Provenance :
  without_commits (JobInput key pipelineInput Provenance)
  = without_commits pipelineInput.
Proof.
  unfold JobInput, without_commits. cbv zeta.
  induction pipelineInput as [pfs cross union cron git IHc IHu]
    using Input_ind.
  cbn [VisitInput]. rewrite fill_commits_resolved.
  cbn [VisitInput Pfs Cross Union Cron Git]. f_equal.
  - by destruct pfs as [[]|].
  - induction IHc as [|i l Hi _ IH]; [done|]. cbn. by rewrite Hi, IH.
  - induction IHu as [|i l Hi _ IH]; [done|]. cbn. by rewrite Hi, IH.
  - by destruct cron as [[]|].
  - by destruct git as [[]|].
Qed.
End JobInputFurther.

(** A provenance that has the repository of the leaf on another branch
    only. *)
Lemma JobInput_foreign_provenance_witness :
  let template :=
    mkInput None
      [mkInput (Some (mkPFSInput "in" "A" "master" "" "/*")) [] [] None None]
      [] None None in
  JobInput slash_key template
    [mkCommitProvenance (mkCommit "A" "c2") (mkBranch "A" "staging")]
  = template.
Proof.
  cbv zeta. apply JobInput_foreign_provenance.
  intros prov ->%list_elem_of_singleton.
  apply (bool_decide_unpack _). by vm_compute.
Defined.

(** ** [PipelineRcName] *)

Lemma string_forall_app P s1 s2 :
  string_forall P (s1 +:+ s2) = string_forall P s1 && string_forall P s2.
Proof.
  induction s1 as [|c s1 IH]; [done|].
  change (String c s1 +:+ s2) with (String c (s1 +:+ s2)).
  cbn [string_forall]. by rewrite IH, andb_assoc.
Qed.

Lemma string_forall_impl (P Q : ascii → bool) s :
  (∀ c, P c = true → Q c = true) →
  string_forall P s = true → string_forall Q s = true.
Proof.
  intros HPQ. induction s as [|c s IH]; [done|]. cbn [string_forall].
  intros [Hc Hs]%andb_prop. by rewrite (HPQ c Hc), IH.
Qed.

Lemma string_forall_map P f s :
  string_forall P (string_map f s) = string_forall (λ c, P (f c)) s.
Proof. induction s as [|c s IH]; [done|]. cbn. by rewrite IH. Qed.

Lemma string_map_map f g s :
  string_map f (string_map g s) = string_map (λ c, f (g c)) s.
Proof. induction s as [|c s IH]; [done|]. cbn. by rewrite IH. Qed.

Lemma string_map_ext f g s :
  (∀ c, f c = g c) → string_map f s = string_map g s.
Proof. intros H. induction s as [|c s IH]; [done|]. cbn. by rewrite H, IH. Qed.

Lemma string_forall_ext P Q s :
  (∀ c, P c = Q c) → string_forall P s = string_forall Q s.
Proof. intros H. induction s as [|c s IH]; [done|]. cbn. by rewrite H, IH. Qed.

(** The decimal numerals are made of digits. *)
Lemma pretty_N_go_digits x s :
  string_forall is_digit s = true →
  string_forall is_digit (pretty_N_go x s) = true.
Proof.
  revert s. induction (N.lt_wf_0 x) as [x _ IH]. intros s Hs.
  assert (x = 0 ∨ 0 < x)%N as [->|Hx] by lia; [done|].
  rewrite pretty_N_go_step by done. apply IH; [by apply N.div_lt|].
  cbn [string_forall]. rewrite Hs, andb_true_r.
  unfold pretty_N_char. by repeat case_match.
Qed.

Lemma pretty_N_digits (x : N) : string_forall is_digit (pretty x) = true.
Proof.
  unfold pretty, pretty_N. case_decide; [done|].
  by apply pretty_N_go_digits.
Qed.

(** A string is taken apart in one way only at the last character of a
    kind. *)
Lemma split_at_last (P : ascii → bool) x a b d1 d2 :
  P x = false →
  string_forall P d1 = true → string_forall P d2 = true →
  a +:+ String x d1 = b +:+ String x d2 → a = b ∧ d1 = d2.
Proof.
  intros Hx H1 H2. revert b.
  induction a as [|c a IH]; intros [|c' b] Heq.
  - by injection Heq as <-.
  - change ("" +:+ String x d1) with (String x d1) in Heq.
    change (String c' b +:+ String x d2)
      with (String c' (b +:+ String x d2)) in Heq.
    injection Heq as <- ->.
    rewrite string_forall_app in H1. cbn [string_forall] in H1.
    rewrite Hx, andb_false_r in H1. done.
  - change ("" +:+ String x d2) with (String x d2) in Heq.
    change (String c a +:+ String x d1)
      with (String c (a +:+ String x d1)) in Heq.
    injection Heq as -> <-.
    rewrite string_forall_app in H2. cbn [string_forall] in H2.
    rewrite Hx, andb_false_r in H2. done.
  - change (String c a +:+ String x d1)
      with (String c (a +:+ String x d1)) in Heq.
    change (String c' b +:+ String x d2)
      with (String c' (b +:+ String x d2)) in Heq.
    injection Heq as -> Heq. destruct (IH b Heq) as [-> ->]. done.
Qed.

Lemma normal_char_ok c :
  rc_char (to_lower (if bool_decide (c = "_"%char) then "-"%char else c))
  = true.
Proof. by destruct c as [[] [] [] [] [] [] [] []]. Qed.

Lemma normal_char_ASCII c :
  is_ASCII (if bool_decide (c = "_"%char) then "-"%char else c) = is_ASCII c
  ∧ is_ASCII (to_lower c) = is_ASCII c.
Proof. by destruct c as [[] [] [] [] [] [] [] []]. Qed.

Lemma normal_char_normal c :
  let dash c := if bool_decide (c = "_"%char) then "-"%char else c in
  to_lower (dash (to_lower (dash c))) = to_lower (dash c).
Proof. by destruct c as [[] [] [] [] [] [] [] []]. Qed.

Lemma digit_rc_char c : is_digit c = true → rc_char c = true.
Proof. by destruct c as [[] [] [] [] [] [] [] []]. Qed.

Section PipelineRcNameProperties.
Context (unicode_ToLower : string → string).

Abbreviation RcName := (PipelineRcName unicode_ToLower).
Abbreviation ToLower := (strings_ToLower unicode_ToLower).

Lemma ToLower_Replace_ASCII name :
  string_forall is_ASCII name = true →
  ToLower (strings_Replace name "_" "-")
  = string_map
      (λ c, to_lower (if bool_decide (c = "_"%char) then "-"%char else c))
      name.
Proof.
  intros Hname. unfold strings_ToLower, strings_Replace.
  rewrite string_forall_map.
  rewrite (string_forall_ext _ is_ASCII)
    by (intros c; apply normal_char_ASCII).
  by rewrite Hname, string_map_map.
Qed.

(** X14: the name made for a pipeline whose name is made of ASCII
    characters has no underscore and no upper-case letter in it, whatever
    the version. *)
Theorem PipelineRcName_characters name version :
  string_forall is_ASCII name = true →
  string_forall rc_char (RcName name version) = true.
Proof.
  intros Hname. unfold PipelineRcName. cbv zeta.
  rewrite ToLower_Replace_ASCII by done.
  rewrite !string_forall_app, string_forall_map.
  rewrite (string_forall_ext
             (λ c, rc_char (to_lower (if bool_decide (c = "_"%char)
                                      then "-"%char else c)))
             (λ _, true))
    by (intros c; apply normal_char_ok).
  rewrite (string_forall_impl is_digit rc_char (pretty version))
    by (apply digit_rc_char || apply pretty_N_digits).
  by rewrite (string_forall_impl is_ASCII (λ _, true) name).
Qed.

(** X15: the name tells the version, and it tells the name of the pipeline
    as far as underscores and case are left out of account, and no further:
    two calls return the same name exactly when the versions are the same
    and the names of the pipelines are the same once their underscores are
    dashes and their letters lower-case letters. *)
Theorem PipelineRcName_same_name name1 version1 name2 version2 :
  RcName name1 version1 = RcName name2 version2
  ↔ ToLower (strings_Replace name1 "_" "-")
    = ToLower (strings_Replace name2 "_" "-")
    ∧ version1 = version2.
Proof.
  unfold PipelineRcName. cbv zeta. split.
  - intros Heq. apply (inj (String.app "pipeline-")) in Heq.
    apply (split_at_last
             (λ c, is_digit c || bool_decide (c = "v"%char))) in Heq
      as [Hn Hv]; [|done|..].
    + split; [done|]. injection Hv as Hv. by apply (inj pretty).
    + cbn [string_forall]. rewrite orb_true_r. cbn [andb].
      eapply string_forall_impl, pretty_N_digits.
      by intros c ->.
    + cbn [string_forall]. rewrite orb_true_r. cbn [andb].
      eapply string_forall_impl, pretty_N_digits.
      by intros c ->.
  - by intros [-> ->].
Qed.

(** X16: a pipeline shares the name of its replication controller with
    the pipeline named as itself with dashes for underscores and lower-case
    for upper-case letters: for a name of ASCII characters, that name gives
    the same result. *)
Theorem PipelineRcName_collision name version :
  string_forall is_ASCII name = true →
  RcName (ToLower (strings_Replace name "_" "-")) version
  = RcName name version.
Proof.
  intros Hname.
  assert (ToLower (strings_Replace
                     (ToLower (strings_Replace name "_" "-")) "_" "-")
          = ToLower (strings_Replace name "_" "-")) as Hnormal;
    [|unfold PipelineRcName; cbv zeta; by rewrite Hnormal].
  rewrite (ToLower_Replace_ASCII name) by done.
  rewrite ToLower_Replace_ASCII.
  - rewrite string_map_map. apply string_map_ext, normal_char_normal.
  - rewrite string_forall_map.
    rewrite (string_forall_ext _ is_ASCII); [done|].
    intros c. destruct (normal_char_ASCII c) as [H1 H2].
    destruct (normal_char_ASCII
                (if bool_decide (c = "_"%char) then "-"%char else c))
      as [_ H3].
    by rewrite H3, H1.
Qed.
End PipelineRcNameProperties.

Lemma PipelineRcName_characters_witness :
  string_forall rc_char (PipelineRcName no_ToLower "Edge_Detect" 3) = true.
Proof. by apply PipelineRcName_characters. Defined.

Lemma PipelineRcName_collision_witness :
  PipelineRcName no_ToLower "edge-detect" 3
  = PipelineRcName no_ToLower "Edge_Detect" 3
  ∧ PipelineRcName no_ToLower "Edge_Detect" 3 = "pipeline-edge-detect-v3".
Proof.
  split; [|by vm_compute].
  by apply (PipelineRcName_collision no_ToLower "Edge_Detect" 3).
Defined.

Module Float64Products.
Import SpecFloat Float64 Float64Facts.

Lemma mul_one_canonical m e :
  digits2_pos m = 53%positive → -52 ≤ e ≤ 0 →
  mul one (S754_finite false m e) = S754_finite false m e.
Proof.
  intros Hd He. unfold mul, SFmul, one. cbn [xorb].
  change (2 ^ 52 * m)%positive with (Pos.iter xO m 52).
  unfold binary_round_aux, shr_fexp.
  cbn [Zdigits2]. rewrite iter_xO_digits, Hd.
  unfold fexp, emin, prec, emax.
  replace ((Z.pos (53 + 52) + (-52 + e) - 53) `max` (3 - 1024 - 53)
           - (-52 + e)) with 52 by lia.
  cbn [shr shr_record_of_loc].
  change (iter_pos shr_1 52
            {| shr_m := Z.pos (Pos.iter xO m 52);
               shr_r := false; shr_s := false |})
    with {| shr_m := Z.pos m; shr_r := false; shr_s := false |}.
  cbn [shr_m loc_of_shr_record round_nearest_even shr_record_of_loc
       Zdigits2].
  rewrite Hd.
  replace (-52 + e + 52) with e by lia.
  replace ((53 + e - 53) `max` (3 - 1024 - 53) - e) with 0 by lia.
  cbn [shr shr_m].
  destruct (Z.leb_spec e (1024 - 53)); [done|lia].
Qed.

(** The product of 1 and a whole number the format holds is that number. *)
Lemma floorZ_mul_one_of_int n :
  0 < n < 2 ^ 53 → floorZ (mul one (of_int n)) = Some n.
Proof.
  intros Hn. destruct n as [|p|p]; try lia.
  unfold of_int. cbn [binary_normalize].
  destruct (binary_round_small false p) as (m & e & -> & He & Hm & Hd);
    [lia|].
  rewrite mul_one_canonical by done.
  cbn [floorZ cond_Zopp]. f_equal.
  assert (0 < 2 ^ (- e)) by (apply Z.pow_pos_nonneg; lia).
  case_bool_decide.
  - assert (e = 0) as -> by lia. change (2 ^ (- 0)) with 1 in Hm.
    change (2 ^ 0) with 1. lia.
  - rewrite Hm, Z.div_mul by lia. done.
Qed.

End Float64Products.

(** X17: a coefficient of 1 makes one worker per node: with a zero
    constant, a cluster that lists its nodes, at least one and fewer than
    [2 ^ 53], gets as many workers as it has nodes. *)
Theorem GetExpectedNumWorkers_one_per_node Items :
  Items ≠ [] → Z.of_nat (length Items) < 2 ^ 53 →
  GetExpectedNumWorkers (mkClientset (Some Items))
    (Some (mkParallelismSpec 0 Float64.one))
  = Ok (Z.of_nat (length Items)).
Proof.
  intros Hne Hlen. unfold GetExpectedNumWorkers, getNumNodes.
  cbn [Constant Coefficient Nodes_List].
  change (Float64.eqb Float64.one Float64.zero) with false.
  change (Float64.gtb Float64.one Float64.zero) with true.
  rewrite !andb_false_r, andb_true_r.
  rewrite (bool_decide_true (0 = 0)) by done.
  rewrite bool_decide_false by by destruct Items.
  cbn [and_then]. f_equal.
  assert (0 < Z.of_nat (length Items)) by (destruct Items; [done|cbn; lia]).
  rewrite (Float64Facts.to_int_Max_Floor _ (Z.of_nat (length Items)));
    [lia| |by apply Float64Products.floorZ_mul_one_of_int|lia].
  apply Float64Facts.mul_mantissa_fits.
Qed.

Lemma GetExpectedNumWorkers_one_per_node_witness :
  GetExpectedNumWorkers (cluster_of 3)
    (Some (mkParallelismSpec 0 Float64.one)) = Ok 3.
Proof.
  by apply (GetExpectedNumWorkers_one_per_node (replicate 3 "node")).
Defined.
